(** * Attack trees: path search, leaf enumeration, serialization, Mermaid export

    A shallow embedding of [docs/security/attack-trees-analysis.py]:
    the [AttackNode] / [AttackTree] data model, the recursive path search
    [_find_path] with its scoring function [_path_score], the leaf
    collectors, [to_dict], and the [MermaidExporter] with its mutable
    state ([_lines], [_node_count], [_node_ids]) threaded explicitly. *)

From Stdlib Require Import ZArith String Ascii List Bool Lia.
From Stdlib Require Import DecimalString DecimalNat.
From Stdlib Require Import Floats.PrimFloat.
From stdpp Require Import base option list strings gmap.
Import ListNotations.

Local Open Scope string_scope.
Local Open Scope list_scope.
Local Open Scope Z_scope.

(** ** Enumerations *)

Inductive NodeType := OR | AND | LEAF.

Definition NodeType_value (t : NodeType) : string :=
  match t with OR => "or" | AND => "and" | LEAF => "leaf" end.

Definition NodeType_eqb (a b : NodeType) : bool :=
  match a, b with
  | OR, OR | AND, AND | LEAF, LEAF => true
  | _, _ => false
  end.

Module Difficulty.
Inductive t := TRIVIAL | LOW | MEDIUM | HIGH | EXPERT.
Definition value (d : t) : Z :=
  match d with TRIVIAL => 1 | LOW => 2 | MEDIUM => 3 | HIGH => 4 | EXPERT => 5 end.
Definition name (d : t) : string :=
  match d with
  | TRIVIAL => "TRIVIAL" | LOW => "LOW" | MEDIUM => "MEDIUM"
  | HIGH => "HIGH" | EXPERT => "EXPERT"
  end.
End Difficulty.

Module Cost.
Inductive t := FREE | LOW | MEDIUM | HIGH | VERY_HIGH.
Definition value (c : t) : Z :=
  match c with FREE => 0 | LOW => 1 | MEDIUM => 2 | HIGH => 3 | VERY_HIGH => 4 end.
Definition name (c : t) : string :=
  match c with
  | FREE => "FREE" | LOW => "LOW" | MEDIUM => "MEDIUM"
  | HIGH => "HIGH" | VERY_HIGH => "VERY_HIGH"
  end.
End Cost.

Module DetectionRisk.
Inductive t := NONE | LOW | MEDIUM | HIGH | CERTAIN.
Definition value (r : t) : Z :=
  match r with NONE => 0 | LOW => 1 | MEDIUM => 2 | HIGH => 3 | CERTAIN => 4 end.
Definition name (r : t) : string :=
  match r with
  | NONE => "NONE" | LOW => "LOW" | MEDIUM => "MEDIUM"
  | HIGH => "HIGH" | CERTAIN => "CERTAIN"
  end.
End DetectionRisk.

(** ** Data model *)

Record AttackAttributes := mkAttackAttributes {
  difficulty : Difficulty.t;
  cost : Cost.t;
  detection_risk : DetectionRisk.t;
  time_hours : float;
  requires_insider : bool;
  requires_physical : bool
}.

(** The dataclass defaults: MEDIUM everywhere, eight hours, no insider,
    no physical access. *)
Definition default_attributes : AttackAttributes :=
  mkAttackAttributes Difficulty.MEDIUM Cost.MEDIUM DetectionRisk.MEDIUM
                     8%float false false.

#[local] Unset Elimination Schemes.

Inductive AttackNode := mkAttackNode {
  id : string;
  name : string;
  description : string;
  node_type : NodeType;
  attributes : AttackAttributes;
  children : list AttackNode;
  mitigations : list string;
  cve_refs : list string;
  file_refs : list string
}.

#[local] Set Elimination Schemes.

Record AttackTree := mkAttackTree {
  tree_name : string;
  tree_description : string;
  root : AttackNode;
  version : string;
  severity : string
}.

(** Induction over a node with the hypothesis available for every child. *)
Section AttackNode_induction.
Variable P : AttackNode -> Prop.
Hypothesis step : forall i n d t a cs m cv f,
    Forall P cs -> P (mkAttackNode i n d t a cs m cv f).

Fixpoint AttackNode_ind (node : AttackNode) : P node :=
  match node with
  | mkAttackNode i n d t a cs m cv f =>
      step i n d t a cs m cv f
        ((fix all (l : list AttackNode) : Forall P l :=
            match l with
            | [] => @List.Forall_nil AttackNode P
            | c :: l' =>
                @List.Forall_cons AttackNode P c l' (AttackNode_ind c) (all l')
            end) cs)
  end.
End AttackNode_induction.

(** [AttackNode.add_child]: append to the receiver's children. *)
Definition add_child (self child : AttackNode) : AttackNode :=
  mkAttackNode (id self) (name self) (description self) (node_type self)
               (attributes self) (children self ++ [child])
               (mitigations self) (cve_refs self) (file_refs self).

(** ** Path search *)

(** [best_score] starts at [float('inf')] and afterwards holds integer
    sums; [Inf] stands for the initial value. *)
Inductive Score := Finite (z : Z) | Inf.

(** [score < best_score] for an integer [score]. *)
Definition score_lt (score : Z) (best_score : Score) : bool :=
  match best_score with
  | Inf => true
  | Finite b => score <? b
  end.

Definition is_leaf (n : AttackNode) : bool := NodeType_eqb (node_type n) LEAF.

(** Python's [sum]: left to right from 0. *)
Definition sum (l : list Z) : Z := fold_left Z.add l 0.

Definition _path_score (path : list AttackNode) (metric : string) : Z :=
  if String.eqb metric "difficulty" then
    sum (map (fun n => Difficulty.value (difficulty (attributes n)))
             (List.filter is_leaf path))
  else if String.eqb metric "cost" then
    sum (map (fun n => Cost.value (cost (attributes n)))
             (List.filter is_leaf path))
  else if String.eqb metric "detection" then
    sum (map (fun n => DetectionRisk.value (detection_risk (attributes n)))
             (List.filter is_leaf path))
  else 0.

(** [best_path or []]: [None] and the empty list are both falsy. *)
Definition or_empty (best_path : option (list AttackNode)) : list AttackNode :=
  match best_path with
  | None => []
  | Some [] => []
  | Some p => p
  end.

(** One iteration of the OR loop over the pair [(best_path, best_score)]. *)
Definition or_step (child_path : list AttackNode) (minimize : string)
    (st : option (list AttackNode) * Score) : option (list AttackNode) * Score :=
  let score := _path_score child_path minimize in
  if score_lt score (snd st) then (Some child_path, Finite score) else st.

Fixpoint _find_path (node : AttackNode) (minimize : string) {struct node}
    : list AttackNode :=
  if NodeType_eqb (node_type node) LEAF then [node]
  else match children node with
  | [] => [node]
  | _ :: _ =>
    if NodeType_eqb (node_type node) OR then
      let st := fold_left
                  (fun st child => or_step (_find_path child minimize) minimize st)
                  (children node) (None, Inf) in
      [node] ++ or_empty (fst st)
    else
      fold_left (fun path child => path ++ _find_path child minimize)
                (children node) [node]
  end.

Definition find_easiest_path (self : AttackTree) : list AttackNode :=
  _find_path (root self) "difficulty".

Definition find_cheapest_path (self : AttackTree) : list AttackNode :=
  _find_path (root self) "cost".

Definition find_stealthiest_path (self : AttackTree) : list AttackNode :=
  _find_path (root self) "detection".

(** ** Leaf enumeration *)

(** [leaves] is the list the caller passes in and the callee appends to;
    the updated list is returned. *)
Fixpoint _collect_leaves (node : AttackNode) (leaves : list AttackNode)
    {struct node} : list AttackNode :=
  let leaves :=
    if NodeType_eqb (node_type node) LEAF then leaves ++ [node] else leaves in
  fold_left (fun leaves child => _collect_leaves child leaves)
            (children node) leaves.

Definition get_all_leaf_attacks (self : AttackTree) : list AttackNode :=
  _collect_leaves (root self) [].

(** [not n.mitigations]: true on the empty list only. *)
Definition no_mitigations (n : AttackNode) : bool :=
  match mitigations n with [] => true | _ :: _ => false end.

Definition get_unmitigated_attacks (self : AttackTree) : list AttackNode :=
  List.filter no_mitigations (get_all_leaf_attacks self).

(** ** Serialization *)

(** The values [to_dict] builds: strings, floats, lists, and dicts with
    string keys in insertion order. *)
#[local] Unset Elimination Schemes.

Inductive PyValue :=
| PyStr (s : string)
| PyFloat (f : float)
| PyList (l : list PyValue)
| PyDict (items : list (string * PyValue)).

#[local] Set Elimination Schemes.

Definition str_list (l : list string) : PyValue := PyList (map PyStr l).

Fixpoint _node_to_dict (node : AttackNode) : PyValue :=
  PyDict [
    ("id", PyStr (id node));
    ("name", PyStr (name node));
    ("description", PyStr (description node));
    ("type", PyStr (NodeType_value (node_type node)));
    ("attributes", PyDict [
       ("difficulty", PyStr (Difficulty.name (difficulty (attributes node))));
       ("cost", PyStr (Cost.name (cost (attributes node))));
       ("detection_risk",
          PyStr (DetectionRisk.name (detection_risk (attributes node))));
       ("time_hours", PyFloat (time_hours (attributes node)))
     ]);
    ("mitigations", str_list (mitigations node));
    ("file_refs", str_list (file_refs node));
    ("children", PyList (map _node_to_dict (children node)))
  ].

Definition to_dict (self : AttackTree) : PyValue :=
  PyDict [
    ("name", PyStr (tree_name self));
    ("description", PyStr (tree_description self));
    ("severity", PyStr (severity self));
    ("version", PyStr (version self));
    ("root", _node_to_dict (root self))
  ].

(** ** Mermaid export *)

(** The entries of [_lines].  Each carries the pieces the source puts into
    its f-string; [render_line] below gives the text. *)
Inductive Line :=
| Header
| StyleLine (node_id style : string)
| NodeLine (node_id shape : string)
| EdgeLine (parent_id connector node_id : string)
| LegendLine (text : string).

Definition render_line (l : Line) : string :=
  match l with
  | Header => "flowchart TD"
  | StyleLine node_id style => "    style " +:+ node_id +:+ " " +:+ style
  | NodeLine _ shape => "    " +:+ shape
  | EdgeLine parent_id connector node_id =>
      "    " +:+ parent_id +:+ " " +:+ connector +:+ " " +:+ node_id
  | LegendLine text => text
  end.

Record MermaidExporter := mkMermaidExporter {
  tree : AttackTree;
  _lines : list Line;
  _node_count : nat;
  _node_ids : gmap string string
}.

(** [MermaidExporter.__init__]. *)
Definition init (tree : AttackTree) : MermaidExporter :=
  mkMermaidExporter tree [] 0%nat ∅.

Definition append_line (self : MermaidExporter) (l : Line) : MermaidExporter :=
  mkMermaidExporter (tree self) (_lines self ++ [l])
                    (_node_count self) (_node_ids self).

(** [str(n)] for a non-negative counter. *)
Definition str_of_nat (n : nat) : string :=
  NilEmpty.string_of_uint (Nat.to_uint n).

Definition Difficulty_eqb (a b : Difficulty.t) : bool :=
  match a, b with
  | Difficulty.TRIVIAL, Difficulty.TRIVIAL
  | Difficulty.LOW, Difficulty.LOW
  | Difficulty.MEDIUM, Difficulty.MEDIUM
  | Difficulty.HIGH, Difficulty.HIGH
  | Difficulty.EXPERT, Difficulty.EXPERT => true
  | _, _ => false
  end.

(** The [colors] table of [_get_leaf_style]. *)
Definition colors : list (Difficulty.t * string) := [
  (Difficulty.TRIVIAL, "fill:#ff6b6b,stroke:#c92a2a,stroke-width:3px");
  (Difficulty.LOW, "fill:#ffa06b,stroke:#e67700,stroke-width:2px");
  (Difficulty.MEDIUM, "fill:#ffd93d,stroke:#fab005,stroke-width:2px");
  (Difficulty.HIGH, "fill:#6bcb77,stroke:#2f9e44,stroke-width:2px");
  (Difficulty.EXPERT, "fill:#4d96ff,stroke:#1971c2,stroke-width:2px")
].

(** [table.get(key, default)]. *)
Fixpoint colors_get (table : list (Difficulty.t * string)) (key : Difficulty.t)
    (default : string) : string :=
  match table with
  | [] => default
  | (k, v) :: rest => if Difficulty_eqb k key then v else colors_get rest key default
  end.

(** Truthiness of a string: non-empty. *)
Definition str_truthy (s : string) : bool :=
  match s with EmptyString => false | String _ _ => true end.

Definition _get_leaf_style (node : AttackNode) : string :=
  let color := colors_get colors (difficulty (attributes node)) "fill:#gray" in
  let has_mitigation :=
    match mitigations node with
    | _ :: _ => "stroke:#51cf66,stroke-width:3px"
    | [] => EmptyString
    end in
  if negb (str_truthy has_mitigation) then color
  else "fill:#d3f9d8," +:+ has_mitigation.

(** Truthiness of [parent_id : Optional[str]]. *)
Definition parent_truthy (parent_id : option string) : bool :=
  match parent_id with
  | None => false
  | Some p => str_truthy p
  end.

Fixpoint _export_node (node : AttackNode) (parent_id : option string)
    (self : MermaidExporter) {struct node} : string * MermaidExporter :=
  let '(node_id, self) :=
    match _node_ids self !! id node with
    | Some node_id => (node_id, self)
    | None =>
        let node_id := "N" +:+ str_of_nat (_node_count self) in
        (node_id,
         mkMermaidExporter (tree self) (_lines self)
                           (S (_node_count self))
                           (<[id node := node_id]> (_node_ids self)))
    end in
  let '(shape, self) :=
    if NodeType_eqb (node_type node) OR then
      (node_id +:+ "(('" +:+ name node +:+ "')", self)
    else if NodeType_eqb (node_type node) AND then
      (node_id +:+ "['" +:+ name node +:+ "']", self)
    else
      let style := _get_leaf_style node in
      (node_id +:+ "['" +:+ name node +:+ "']",
       append_line self (StyleLine node_id style)) in
  let self := append_line self (NodeLine node_id shape) in
  let self :=
    if parent_truthy parent_id then
      let connector :=
        if negb (NodeType_eqb (node_type node) AND) then "-->" else "==>" in
      append_line self (EdgeLine (default EmptyString parent_id) connector node_id)
    else self in
  let self :=
    fold_left (fun self child => snd (_export_node child (Some node_id) self))
              (children node) self in
  (node_id, self).

Definition newline : string := String (ascii_of_nat 10) EmptyString.

Definition _add_legend (self : MermaidExporter) : MermaidExporter :=
  let self := append_line self (LegendLine
    (newline +:+ "    classDef trivial fill:#ff6b6b,stroke:#c92a2a,stroke-width:3px")) in
  let self := append_line self (LegendLine
    "    classDef low fill:#ffa06b,stroke:#e67700,stroke-width:2px") in
  let self := append_line self (LegendLine
    "    classDef medium fill:#ffd93d,stroke:#fab005,stroke-width:2px") in
  let self := append_line self (LegendLine
    "    classDef high fill:#6bcb77,stroke:#2f9e44,stroke-width:2px") in
  append_line self (LegendLine
    "    classDef expert fill:#4d96ff,stroke:#1971c2,stroke-width:2px").

(** [export]: the state after the walk and the legend, and the text
    returned. *)
Definition export_state (self : MermaidExporter) : MermaidExporter :=
  let self := mkMermaidExporter (tree self) [Header]
                                (_node_count self) (_node_ids self) in
  let self := snd (_export_node (root (tree self)) None self) in
  _add_legend self.

Definition export (self : MermaidExporter) : string :=
  String.concat newline (map render_line (_lines (export_state self))).

(** ** Auxiliary definitions for the statements *)

(** Depth-first pre-order: a node, then its children's subtrees in stored
    order. *)
Fixpoint preorder (node : AttackNode) : list AttackNode :=
  node :: concat (map preorder (children node)).

(** The state of the OR loop of [_find_path] when it ends. *)
Definition or_loop_state (node : AttackNode) (minimize : string)
    : option (list AttackNode) * Score :=
  fold_left (fun st child => or_step (_find_path child minimize) minimize st)
            (children node) (None, Inf).

(** The same loop over the candidate paths themselves. *)
Definition or_loop (paths : list (list AttackNode)) (minimize : string)
    (st : option (list AttackNode) * Score) : option (list AttackNode) * Score :=
  fold_left (fun st p => or_step p minimize st) paths st.

(** What the loop holds after the candidates [seen]: nothing before the
    first one, afterwards the first candidate of least score. *)
Definition first_min (minimize : string) (seen : list (list AttackNode))
    (st : option (list AttackNode) * Score) : Prop :=
  (seen = [] /\ st = (None, Inf)) \/
  exists (i : nat) (p : list AttackNode),
    seen !! i = Some p /\
    st = (Some p, Finite (_path_score p minimize)) /\
    (forall (j : nat) q, seen !! j = Some q ->
       _path_score p minimize <= _path_score q minimize) /\
    (forall (j : nat) q, (j < i)%nat -> seen !! j = Some q ->
       _path_score p minimize < _path_score q minimize).

(** *** Re-walking a serialized tree *)

(** [d[key]] on a dict value; [None] when [d] is not a dict or lacks the
    key. *)
Definition dict_get (key : string) (d : PyValue) : option PyValue :=
  match d with
  | PyDict items =>
      (fix find (items : list (string * PyValue)) : option PyValue :=
         match items with
         | [] => None
         | (k, v) :: rest => if String.eqb k key then Some v else find rest
         end) items
  | _ => None
  end.

(** The list under ["children"], empty when there is none. *)
Definition dict_children (d : PyValue) : list PyValue :=
  match dict_get "children" d with
  | Some (PyList l) => l
  | _ => []
  end.

(** A walk over a serialized node that follows the nested ["children"]
    lists: [f] receives an entry and the results for its children. *)
Fixpoint walk {R : Type} (f : PyValue -> list R -> R) (d : PyValue) : R :=
  f d
    match d with
    | PyDict items =>
        (fix find (items : list (string * PyValue)) : list R :=
           match items with
           | [] => []
           | (k, v) :: rest =>
               if String.eqb k "children" then
                 match v with
                 | PyList l => map (walk f) l
                 | _ => []
                 end
               else find rest
           end) items
    | _ => []
    end.

(** The entries met by the walk, root first. *)
Definition rewalk (d : PyValue) : list PyValue :=
  walk (fun d rs => d :: concat rs) d.

(** Parent/child structure with the identifier found at each vertex. *)
#[local] Unset Elimination Schemes.

Inductive IdTree := IdNode (i : option PyValue) (cs : list IdTree).

#[local] Set Elimination Schemes.

Definition dict_shape (d : PyValue) : IdTree :=
  walk (fun d rs => IdNode (dict_get "id" d) rs) d.

Fixpoint node_shape (node : AttackNode) : IdTree :=
  IdNode (Some (PyStr (id node))) (map node_shape (children node)).

(** What [_node_to_dict] puts into the entry [e] of node [n]. *)
Definition emitted (n : AttackNode) (e : PyValue) : Prop :=
  dict_get "id" e = Some (PyStr (id n)) /\
  dict_get "name" e = Some (PyStr (name n)) /\
  dict_get "description" e = Some (PyStr (description n)) /\
  dict_get "type" e = Some (PyStr (NodeType_value (node_type n))) /\
  dict_get "attributes" e
  = Some (PyDict [
      ("difficulty", PyStr (Difficulty.name (difficulty (attributes n))));
      ("cost", PyStr (Cost.name (cost (attributes n))));
      ("detection_risk",
         PyStr (DetectionRisk.name (detection_risk (attributes n))));
      ("time_hours", PyFloat (time_hours (attributes n)))]) /\
  dict_get "mitigations" e = Some (PyList (map PyStr (mitigations n))) /\
  dict_get "file_refs" e = Some (PyList (map PyStr (file_refs n))) /\
  dict_get "children" e = Some (PyList (map _node_to_dict (children n))).

(** *** The lines an export is expected to hold *)

(** The visits of the exporter's walk: each node with its parent, the
    root with none, in pre-order. *)
Fixpoint visits (parent : option AttackNode) (node : AttackNode)
    : list (option AttackNode * AttackNode) :=
  (parent, node) :: concat (map (visits (Some node)) (children node)).

(** The diagram identifier the memo [M] holds for a node's [id]. *)
Definition ident (M : gmap string string) (n : AttackNode) : string :=
  default EmptyString (M !! id n).

Definition shape_of (node_id : string) (n : AttackNode) : string :=
  if NodeType_eqb (node_type n) OR then node_id +:+ "(('" +:+ name n +:+ "')"
  else node_id +:+ "['" +:+ name n +:+ "']".

Definition double_if_and (n : AttackNode) : string :=
  if NodeType_eqb (node_type n) AND then "==>" else "-->".

(** Connector chosen from the node at the head of the edge. *)
Definition connector_of_child (parent child : AttackNode) : string :=
  double_if_and child.

(** Connector chosen from the node at the tail of the edge. *)
Definition connector_of_parent (parent child : AttackNode) : string :=
  double_if_and parent.

Definition style_line (M : gmap string string) (n : AttackNode) : Line :=
  StyleLine (ident M n) (_get_leaf_style n).

Definition node_line (M : gmap string string) (n : AttackNode) : Line :=
  NodeLine (ident M n) (shape_of (ident M n) n).

Definition edge_line (connector : AttackNode -> AttackNode -> string)
    (M : gmap string string) (v : option AttackNode * AttackNode)
    : list Line :=
  match fst v with
  | Some parent =>
      [EdgeLine (ident M parent) (connector parent (snd v)) (ident M (snd v))]
  | None => []
  end.

(** The lines of one visit: style (leaves only), declaration, edge. *)
Definition visit_lines (M : gmap string string)
    (v : option AttackNode * AttackNode) : list Line :=
  (if is_leaf (snd v) then [style_line M (snd v)] else [])
  ++ [node_line M (snd v)]
  ++ edge_line connector_of_child M v.

Definition is_style_line (l : Line) : bool :=
  match l with StyleLine _ _ => true | _ => false end.

Definition is_node_line (l : Line) : bool :=
  match l with NodeLine _ _ => true | _ => false end.

Definition is_edge_line (l : Line) : bool :=
  match l with EdgeLine _ _ _ => true | _ => false end.

Definition style_lines (self : MermaidExporter) : list Line :=
  List.filter is_style_line (_lines self).

Definition node_lines (self : MermaidExporter) : list Line :=
  List.filter is_node_line (_lines self).

Definition edge_lines (self : MermaidExporter) : list Line :=
  List.filter is_edge_line (_lines self).

(** The diagram identifier a style, declaration or edge line is about
    (for an edge, its head). *)
Definition line_node_id (l : Line) : string :=
  match l with
  | StyleLine node_id _ | NodeLine node_id _ | EdgeLine _ _ node_id => node_id
  | Header | LegendLine _ => EmptyString
  end.

(** The exporter state kept between calls: every memoized identifier is
    [N<k>] for some [k] below the counter, no identifier is memoized
    under two ids, and the counter is the number of memoized ids. *)
Definition memo_ok (self : MermaidExporter) : Prop :=
  (forall i x, _node_ids self !! i = Some x ->
     exists k : nat, (k < _node_count self)%nat /\ x = "N" +:+ str_of_nat k) /\
  (forall i j x, _node_ids self !! i = Some x ->
     _node_ids self !! j = Some x -> i = j) /\
  _node_count self = size (_node_ids self).

(** The ids met in a subtree, as a set. *)
Definition id_set (node : AttackNode) : gset string :=
  list_to_set (map id (preorder node)).

(** The state a fresh exporter is in after [export]. *)
Definition exported (t : AttackTree) : MermaidExporter :=
  export_state (init t).

(** The mitigated style. *)
Definition mitigated_style : string :=
  "fill:#d3f9d8,stroke:#51cf66,stroke-width:3px".

(** *** The two phases of one [_export_node] call before the loop *)

(** Lines 197-202: look the id up in the memo or mint [N<count>]. *)
Definition assign (node : AttackNode) (self : MermaidExporter)
    : string * MermaidExporter :=
  match _node_ids self !! id node with
  | Some node_id => (node_id, self)
  | None =>
      let node_id := "N" +:+ str_of_nat (_node_count self) in
      (node_id,
       mkMermaidExporter (tree self) (_lines self)
                         (S (_node_count self))
                         (<[id node := node_id]> (_node_ids self)))
  end.

(** Lines 204-218: the style, declaration and edge lines of the node. *)
Definition declare (node : AttackNode) (node_id : string)
    (parent_id : option string) (self : MermaidExporter) : MermaidExporter :=
  let '(shape, self) :=
    if NodeType_eqb (node_type node) OR then
      (node_id +:+ "(('" +:+ name node +:+ "')", self)
    else if NodeType_eqb (node_type node) AND then
      (node_id +:+ "['" +:+ name node +:+ "']", self)
    else
      let style := _get_leaf_style node in
      (node_id +:+ "['" +:+ name node +:+ "']",
       append_line self (StyleLine node_id style)) in
  let self := append_line self (NodeLine node_id shape) in
  if parent_truthy parent_id then
    let connector :=
      if negb (NodeType_eqb (node_type node) AND) then "-->" else "==>" in
    append_line self (EdgeLine (default EmptyString parent_id) connector node_id)
  else self.

(** The five lines [_add_legend] appends. *)
Definition legend_lines : list Line := [
  LegendLine
    (newline +:+ "    classDef trivial fill:#ff6b6b,stroke:#c92a2a,stroke-width:3px");
  LegendLine "    classDef low fill:#ffa06b,stroke:#e67700,stroke-width:2px";
  LegendLine "    classDef medium fill:#ffd93d,stroke:#fab005,stroke-width:2px";
  LegendLine "    classDef high fill:#6bcb77,stroke:#2f9e44,stroke-width:2px";
  LegendLine "    classDef expert fill:#4d96ff,stroke:#1971c2,stroke-width:2px"
].

(** *** Every path the search could choose *)

(** One element from each list, in order. *)
Fixpoint product {A : Type} (ls : list (list A)) : list (list A) :=
  match ls with
  | [] => [[]]
  | l :: ls' => concat (map (fun x => map (cons x) (product ls')) l)
  end.

(** The candidate paths of a node: itself alone for a LEAF or a childless
    node, itself followed by a candidate of any one child for an OR node,
    itself followed by one candidate of every child for an AND node. *)
Fixpoint all_paths (node : AttackNode) : list (list AttackNode) :=
  if NodeType_eqb (node_type node) LEAF then [[node]]
  else match children node with
  | [] => [[node]]
  | _ :: _ =>
    if NodeType_eqb (node_type node) OR then
      map (cons node) (concat (map all_paths (children node)))
    else
      map (fun ps => node :: concat ps)
          (product (map all_paths (children node)))
  end.

(** Every OR or AND node of the subtree has at least one child. *)
Fixpoint scorable (node : AttackNode) : bool :=
  (is_leaf node || match children node with [] => false | _ :: _ => true end)
  && forallb scorable (children node).

(** A tree with another root. *)
Definition with_root (self : AttackTree) (new_root : AttackNode) : AttackTree :=
  mkAttackTree (tree_name self) (tree_description self) new_root
               (version self) (severity self).

(** The part of a subtree [_node_to_dict] writes out: [cve_refs],
    [requires_insider] and [requires_physical] are not serialized, so they
    are put back to their defaults at every node. *)
Fixpoint serialized_part (node : AttackNode) : AttackNode :=
  mkAttackNode (id node) (name node) (description node) (node_type node)
    (mkAttackAttributes (difficulty (attributes node))
                        (cost (attributes node))
                        (detection_risk (attributes node))
                        (time_hours (attributes node)) false false)
    (map serialized_part (children node))
    (mitigations node) [] (file_refs node).

(** The three numbers of the console summary of [generate_all_reports]:
    trees analysed, leaf attacks in all trees, unmitigated attacks in all
    trees. *)
Definition summary (trees : list AttackTree) : Z * Z * Z :=
  (Z.of_nat (length trees),
   sum (map (fun t => Z.of_nat (length (get_all_leaf_attacks t))) trees),
   sum (map (fun t => Z.of_nat (length (get_unmitigated_attacks t))) trees)).

(** Each node of the list is a child of the one before it. *)
Fixpoint chain (path : list AttackNode) : Prop :=
  match path with
  | a :: (b :: _) as rest => In b (children a) /\ chain rest
  | _ => True
  end.

(** No node of the subtree has kind AND. *)
Fixpoint and_free (node : AttackNode) : bool :=
  negb (NodeType_eqb (node_type node) AND)
  && forallb and_free (children node).

(** ** Sample trees *)

(** [AttackNode(id=..., name=..., description=..., node_type=...)] with the
    remaining fields at their defaults. *)
Definition new_node (i n : string) (t : NodeType) : AttackNode :=
  mkAttackNode i n EmptyString t default_attributes [] [] [] [].

Definition new_leaf (i n : string) (d : Difficulty.t) (c : Cost.t)
    (r : DetectionRisk.t) (mits : list string) : AttackNode :=
  mkAttackNode i n EmptyString LEAF (mkAttackAttributes d c r 1%float false false)
               [] mits [] [].

Definition leaf_A : AttackNode :=
  new_leaf "A" "leaf A" Difficulty.TRIVIAL Cost.LOW DetectionRisk.NONE [].

Definition leaf_B : AttackNode :=
  new_leaf "B" "leaf B" Difficulty.HIGH Cost.MEDIUM DetectionRisk.LOW
           ["validate input"].

(** root(OR) with leaves A and B. *)
Definition or_root : AttackNode :=
  add_child (add_child (new_node "R" "goal" OR) leaf_A) leaf_B.

(** root(AND) with leaves A and B. *)
Definition and_root : AttackNode :=
  add_child (add_child (new_node "R" "goal" AND) leaf_A) leaf_B.

Definition or_tree : AttackTree := mkAttackTree "or" EmptyString or_root "1.0" "Medium".
Definition and_tree : AttackTree := mkAttackTree "and" EmptyString and_root "1.0" "Medium".

(** A root with two distinct leaves that share the id ["X"]. *)
Definition dup_first : AttackNode :=
  new_leaf "X" "first" Difficulty.LOW Cost.FREE DetectionRisk.NONE [].

Definition dup_second : AttackNode :=
  new_leaf "X" "second" Difficulty.EXPERT Cost.HIGH DetectionRisk.HIGH [].

Definition dup_root : AttackNode :=
  add_child (add_child (new_node "R" "goal" OR) dup_first) dup_second.

Definition dup_tree : AttackTree := mkAttackTree "dup" EmptyString dup_root "1.0" "Medium".

(** * Properties *)

(** ** Scores *)

Lemma sum_from (l : list Z) (a : Z) : fold_left Z.add l a = a + sum l.
Proof.
  unfold sum. revert a.
  induction l as [|x l IH]; intros a; simpl; [lia|].
  rewrite (IH (a + x)), (IH (0 + x)). lia.
Qed.

Lemma sum_cons (x : Z) (l : list Z) : sum (x :: l) = x + sum l.
Proof. unfold sum at 1. simpl. apply sum_from. Qed.

Lemma sum_app (l1 l2 : list Z) : sum (l1 ++ l2) = sum l1 + sum l2.
Proof.
  induction l1 as [|x l1 IH]; simpl; [reflexivity|].
  rewrite !sum_cons, IH. lia.
Qed.

Lemma path_score_nil (metric : string) : _path_score [] metric = 0.
Proof. unfold _path_score. repeat case_match; reflexivity. Qed.

Lemma path_score_app (p q : list AttackNode) (metric : string) :
  _path_score (p ++ q) metric = _path_score p metric + _path_score q metric.
Proof.
  unfold _path_score.
  repeat case_match; rewrite ?List.filter_app, ?map_app, ?sum_app; lia.
Qed.

Lemma path_score_cons (n : AttackNode) (p : list AttackNode) (metric : string) :
  _path_score (n :: p) metric = _path_score [n] metric + _path_score p metric.
Proof. apply (path_score_app [n] p). Qed.

Lemma path_score_inner (n : AttackNode) (metric : string) :
  node_type n <> LEAF -> _path_score [n] metric = 0.
Proof.
  intros Hk. unfold _path_score. simpl. unfold is_leaf.
  destruct (node_type n); try congruence; simpl; repeat case_match; reflexivity.
Qed.

Lemma path_score_concat (ps : list (list AttackNode)) (metric : string) :
  _path_score (concat ps) metric
  = sum (map (fun p => _path_score p metric) ps).
Proof.
  induction ps as [|p ps IH]; simpl.
  - apply path_score_nil.
  - rewrite path_score_app, sum_cons, IH. reflexivity.
Qed.

(** ** The branches of [_find_path] *)

Lemma find_path_leaf (node : AttackNode) (minimize : string) :
  node_type node = LEAF -> _find_path node minimize = [node].
Proof. intros H. destruct node; simpl in *. rewrite H. reflexivity. Qed.

Lemma find_path_childless (node : AttackNode) (minimize : string) :
  children node = [] -> _find_path node minimize = [node].
Proof.
  intros H. destruct node; simpl in *. rewrite H.
  destruct (NodeType_eqb _ _); reflexivity.
Qed.

Lemma find_path_or (node : AttackNode) (minimize : string) :
  node_type node = OR -> children node <> [] ->
  _find_path node minimize
  = [node] ++ or_empty (fst (or_loop_state node minimize)).
Proof.
  intros Hk Hc. unfold or_loop_state. destruct node; simpl in *.
  rewrite Hk. simpl. destruct children0; [congruence | reflexivity].
Qed.

Lemma fold_left_extend {A B} (f : A -> list B) (l : list A) (init : list B) :
  fold_left (fun path x => path ++ f x) l init = init ++ concat (map f l).
Proof.
  revert init. induction l as [|x l IH]; intros init; simpl.
  - rewrite app_nil_r. reflexivity.
  - rewrite IH, <- app_assoc. reflexivity.
Qed.

Lemma find_path_and (node : AttackNode) (minimize : string) :
  node_type node = AND -> children node <> [] ->
  _find_path node minimize
  = node :: concat (map (fun c => _find_path c minimize) (children node)).
Proof.
  intros Hk Hc. destruct node; simpl in *.
  rewrite Hk. simpl. destruct children0; [congruence |].
  rewrite fold_left_extend. reflexivity.
Qed.

Lemma find_path_head (node : AttackNode) (minimize : string) :
  exists rest, _find_path node minimize = node :: rest.
Proof.
  destruct (node_type node) eqn:Hk.
  - destruct (children node) eqn:Hc.
    + rewrite find_path_childless by assumption. eauto.
    + rewrite find_path_or by congruence. simpl. eauto.
  - destruct (children node) eqn:Hc.
    + rewrite find_path_childless by assumption. eauto.
    + rewrite find_path_and by congruence. eauto.
  - rewrite find_path_leaf by assumption. eauto.
Qed.

(** ** The OR loop keeps the first minimum *)

Lemma or_loop_state_paths (node : AttackNode) (minimize : string) :
  or_loop_state node minimize
  = or_loop (map (fun c => _find_path c minimize) (children node))
            minimize (None, Inf).
Proof.
  unfold or_loop_state, or_loop.
  generalize (@None (list AttackNode), Inf).
  induction (children node) as [|c cs IH]; intros st; simpl; [reflexivity|].
  apply IH.
Qed.

Lemma lookup_snoc_inv {A} (l : list A) (x y : A) (j : nat) :
  (l ++ [x]) !! j = Some y ->
  ((j < length l)%nat /\ l !! j = Some y) \/ (j = length l /\ y = x).
Proof.
  intros H. destruct (decide (j < length l)%nat) as [Hj|Hj].
  - left. rewrite lookup_app_l in H by assumption. auto.
  - right. rewrite lookup_app_r in H by lia.
    destruct (j - length l)%nat eqn:Hd; simpl in H; [|discriminate].
    split; [lia | congruence].
Qed.

Lemma first_min_step (minimize : string) (seen : list (list AttackNode))
    (st : option (list AttackNode) * Score) (p : list AttackNode) :
  first_min minimize seen st ->
  first_min minimize (seen ++ [p]) (or_step p minimize st).
Proof.
  intros [[-> ->] | (i & b & Hi & -> & Hmin & Hfirst)]; right.
  - exists 0%nat, p. unfold or_step; simpl. repeat split.
    + intros [|j] q Hq; simpl in Hq; [|discriminate].
      injection Hq as <-. lia.
    + intros j q Hj. lia.
  - unfold or_step; simpl.
    pose proof (lookup_lt_Some _ _ _ Hi) as Hilen.
    destruct (_path_score p minimize <? _path_score b minimize) eqn:Hlt.
    + apply Z.ltb_lt in Hlt.
      exists (length seen), p. repeat split.
      * rewrite lookup_app_r by lia. rewrite Nat.sub_diag. reflexivity.
      * intros j q Hq.
        apply lookup_snoc_inv in Hq as [[_ Hq] | [_ ->]]; [|lia].
        specialize (Hmin j q Hq). lia.
      * intros j q Hj Hq.
        apply lookup_snoc_inv in Hq as [[_ Hq] | [-> _]]; [|lia].
        specialize (Hmin j q Hq). lia.
    + apply Z.ltb_ge in Hlt.
      exists i, b. repeat split.
      * rewrite lookup_app_l by assumption. assumption.
      * intros j q Hq.
        apply lookup_snoc_inv in Hq as [[_ Hq] | [_ ->]]; [eauto | lia].
      * intros j q Hj Hq.
        apply lookup_snoc_inv in Hq as [[_ Hq] | [-> _]]; [eauto | lia].
Qed.

Lemma or_loop_first_min (minimize : string) (paths : list (list AttackNode)) :
  first_min minimize paths (or_loop paths minimize (None, Inf)).
Proof.
  induction paths as [|p paths IH] using rev_ind.
  - left. split; reflexivity.
  - unfold or_loop. rewrite fold_left_app. simpl.
    apply first_min_step. exact IH.
Qed.

(** The loop's result in terms of the node's children. *)
Lemma or_loop_state_child (node : AttackNode) (minimize : string) :
  children node <> [] ->
  exists (i : nat) (child : AttackNode),
    children node !! i = Some child /\
    or_loop_state node minimize
    = (Some (_find_path child minimize),
       Finite (_path_score (_find_path child minimize) minimize)) /\
    (forall (j : nat) c, children node !! j = Some c ->
       _path_score (_find_path child minimize) minimize
       <= _path_score (_find_path c minimize) minimize) /\
    (forall (j : nat) c, (j < i)%nat -> children node !! j = Some c ->
       _path_score (_find_path child minimize) minimize
       < _path_score (_find_path c minimize) minimize).
Proof.
  intros Hc. rewrite or_loop_state_paths.
  pose proof (or_loop_first_min minimize
                (map (fun c => _find_path c minimize) (children node))) as H.
  destruct H as [[Hnil _] | (i & p & Hi & Hst & Hmin & Hfirst)].
  { destruct (children node); [congruence | discriminate]. }
  rewrite list_lookup_fmap in Hi.
  destruct (children node !! i) as [child|] eqn:Hchild; [|discriminate].
  simpl in Hi. injection Hi as <-.
  exists i, child. split; [assumption|]. split; [assumption|]. split.
  - intros j c Hj. apply (Hmin j). rewrite list_lookup_fmap, Hj. reflexivity.
  - intros j c Hlt Hj. apply (Hfirst j); [assumption|].
    rewrite list_lookup_fmap, Hj. reflexivity.
Qed.

(** ** Path search: the three cases *)

(** C1: at an OR node with children, [_find_path] returns the node followed
    by the best path of one child; that child's best path has the least
    score among all children's best paths, the node itself adds nothing to
    the score, and every earlier child scores strictly more, so the first
    child of least score is the one kept. *)
Theorem find_path_or_first_min (node : AttackNode) (minimize : string) :
  node_type node = OR -> children node <> [] ->
  exists (i : nat) (child : AttackNode),
    children node !! i = Some child /\
    _find_path node minimize = node :: _find_path child minimize /\
    _path_score (_find_path node minimize) minimize
    = _path_score (_find_path child minimize) minimize /\
    (forall (j : nat) c, children node !! j = Some c ->
       _path_score (_find_path node minimize) minimize
       <= _path_score (_find_path c minimize) minimize) /\
    (forall (j : nat) c, (j < i)%nat -> children node !! j = Some c ->
       _path_score (_find_path child minimize) minimize
       < _path_score (_find_path c minimize) minimize).
Proof.
  intros Hk Hc.
  destruct (or_loop_state_child node minimize Hc)
    as (i & child & Hi & Hst & Hmin & Hfirst).
  assert (Hpath : _find_path node minimize = node :: _find_path child minimize).
  { rewrite find_path_or, Hst by assumption. simpl.
    destruct (find_path_head child minimize) as [rest ->]. reflexivity. }
  assert (Hscore : _path_score (_find_path node minimize) minimize
                   = _path_score (_find_path child minimize) minimize).
  { rewrite Hpath, path_score_cons, path_score_inner by congruence. lia. }
  exists i, child. split; [assumption|]. split; [assumption|].
  split; [assumption|]. split; [|assumption].
  intros j c Hj. rewrite Hscore. eauto.
Qed.

Lemma find_path_or_first_min_witness :
  exists (i : nat) (child : AttackNode),
    children or_root !! i = Some child /\
    _find_path or_root "difficulty" = or_root :: _find_path child "difficulty" /\
    _path_score (_find_path or_root "difficulty") "difficulty"
    = _path_score (_find_path child "difficulty") "difficulty" /\
    (forall (j : nat) c, children or_root !! j = Some c ->
       _path_score (_find_path or_root "difficulty") "difficulty"
       <= _path_score (_find_path c "difficulty") "difficulty") /\
    (forall (j : nat) c, (j < i)%nat -> children or_root !! j = Some c ->
       _path_score (_find_path child "difficulty") "difficulty"
       < _path_score (_find_path c "difficulty") "difficulty").
Proof.
  apply (find_path_or_first_min or_root "difficulty");
    [reflexivity | discriminate].
Defined.

(** C2: at an AND node with children, [_find_path] returns the node
    followed by every child's best path in children order, and the score
    of that path is the sum of the children's best-path scores. *)
Theorem find_path_and_all (node : AttackNode) (minimize : string) :
  node_type node = AND -> children node <> [] ->
  _find_path node minimize
  = [node] ++ concat (map (fun c => _find_path c minimize) (children node)) /\
  _path_score (_find_path node minimize) minimize
  = sum (map (fun c => _path_score (_find_path c minimize) minimize)
             (children node)).
Proof.
  intros Hk Hc. rewrite find_path_and by assumption. split; [reflexivity|].
  rewrite path_score_cons, path_score_inner, path_score_concat by congruence.
  rewrite map_map. lia.
Qed.

Lemma find_path_and_all_witness :
  _find_path and_root "cost"
  = [and_root] ++ concat (map (fun c => _find_path c "cost") (children and_root)) /\
  _path_score (_find_path and_root "cost") "cost"
  = sum (map (fun c => _path_score (_find_path c "cost") "cost")
             (children and_root)).
Proof.
  apply (find_path_and_all and_root "cost"); [reflexivity | discriminate].
Defined.

(** C3: a LEAF, or any node without children, has the one-element path
    made of itself; for a LEAF that path scores the leaf's own difficulty,
    cost or detection-risk value under the matching metric, and for a
    childless OR or AND node it scores 0 under every metric. *)
Theorem find_path_single (node : AttackNode) (minimize : string) :
  node_type node = LEAF \/ children node = [] ->
  _find_path node minimize = [node] /\
  (node_type node = LEAF ->
     _path_score (_find_path node "difficulty") "difficulty"
     = Difficulty.value (difficulty (attributes node)) /\
     _path_score (_find_path node "cost") "cost"
     = Cost.value (cost (attributes node)) /\
     _path_score (_find_path node "detection") "detection"
     = DetectionRisk.value (detection_risk (attributes node))) /\
  (node_type node <> LEAF ->
     _path_score (_find_path node minimize) minimize = 0).
Proof.
  intros H.
  assert (Hp : forall m, _find_path node m = [node]).
  { intros m. destruct H; [apply find_path_leaf | apply find_path_childless];
      assumption. }
  split; [apply Hp|]. split.
  - intros Hk. rewrite !Hp. unfold _path_score, is_leaf. simpl.
    rewrite Hk. simpl. unfold sum. simpl. repeat split; lia.
  - intros Hk. rewrite Hp. apply path_score_inner. assumption.
Qed.

Lemma find_path_single_witness :
  _find_path leaf_B "cost" = [leaf_B] /\
  (node_type leaf_B = LEAF ->
     _path_score (_find_path leaf_B "difficulty") "difficulty"
     = Difficulty.value (difficulty (attributes leaf_B)) /\
     _path_score (_find_path leaf_B "cost") "cost"
     = Cost.value (cost (attributes leaf_B)) /\
     _path_score (_find_path leaf_B "detection") "detection"
     = DetectionRisk.value (detection_risk (attributes leaf_B))) /\
  (node_type leaf_B <> LEAF ->
     _path_score (_find_path leaf_B "cost") "cost" = 0).
Proof.
  apply (find_path_single leaf_B "cost"). left. reflexivity.
Defined.

(** C10: at an OR node with children the loop ends with [best_path] set to
    a non-empty path and [best_score] finite, so [best_path or []] is that
    path, and the result is the node followed by at least one more node. *)
Theorem find_path_or_best_set (node : AttackNode) (minimize : string) :
  node_type node = OR -> children node <> [] ->
  exists (p : list AttackNode) (s : Z),
    or_loop_state node minimize = (Some p, Finite s) /\
    p <> [] /\
    or_empty (Some p) = p /\
    _find_path node minimize = node :: p /\
    (2 <= length (_find_path node minimize))%nat.
Proof.
  intros Hk Hc.
  destruct (or_loop_state_child node minimize Hc)
    as (i & child & _ & Hst & _).
  destruct (find_path_head child minimize) as [rest Hrest].
  exists (_find_path child minimize), (_path_score (_find_path child minimize) minimize).
  split; [assumption|].
  rewrite (find_path_or node), Hst by assumption. rewrite Hrest. simpl.
  repeat split; [discriminate | lia].
Qed.

Lemma find_path_or_best_set_witness :
  exists (p : list AttackNode) (s : Z),
    or_loop_state or_root "detection" = (Some p, Finite s) /\
    p <> [] /\
    or_empty (Some p) = p /\
    _find_path or_root "detection" = or_root :: p /\
    (2 <= length (_find_path or_root "detection"))%nat.
Proof.
  apply (find_path_or_best_set or_root "detection");
    [reflexivity | discriminate].
Defined.

(** The two worked examples: OR picks the easier leaf, AND takes both. *)
Example easiest_path_or_tree :
  find_easiest_path or_tree = [or_root; leaf_A] /\
  _path_score (find_easiest_path or_tree) "difficulty" = 1.
Proof. split; reflexivity. Qed.

Example cheapest_path_and_tree :
  find_cheapest_path and_tree = [and_root; leaf_A; leaf_B] /\
  _path_score (find_cheapest_path and_tree) "cost" = 3.
Proof. split; reflexivity. Qed.

(** ** Leaf enumeration *)

Lemma filter_concat {A} (f : A -> bool) (ls : list (list A)) :
  List.filter f (concat ls) = concat (map (List.filter f) ls).
Proof.
  induction ls as [|l ls IH]; simpl; [reflexivity|].
  rewrite List.filter_app, IH. reflexivity.
Qed.

Lemma collect_leaves_preorder (node : AttackNode) :
  forall leaves,
    _collect_leaves node leaves
    = leaves ++ List.filter is_leaf (preorder node).
Proof.
  induction node as [i n d t a cs m cv f IH] using AttackNode_ind.
  intros leaves. simpl. unfold is_leaf at 1. simpl.
  rewrite filter_concat, map_map.
  assert (Hloop : forall acc,
    fold_left (fun leaves child => _collect_leaves child leaves) cs acc
    = acc ++ concat (map (fun c => List.filter is_leaf (preorder c)) cs)).
  { clear leaves. induction IH as [|c cs' Hc _ IHcs]; intros acc; simpl.
    - rewrite app_nil_r. reflexivity.
    - rewrite IHcs, Hc, <- app_assoc. reflexivity. }
  rewrite Hloop. destruct (NodeType_eqb t LEAF); simpl.
  - rewrite <- app_assoc. reflexivity.
  - reflexivity.
Qed.

Lemma filter_split_length {A} (f : A -> bool) (l : list A) :
  (length (List.filter f l) + length (List.filter (fun x => negb (f x)) l)
   = length l)%nat.
Proof.
  induction l as [|x l IH]; simpl; [reflexivity|].
  destruct (f x); simpl; lia.
Qed.

(** C5: [get_all_leaf_attacks] is the pre-order listing of the tree
    restricted to the LEAF nodes (every LEAF of the tree once, parents
    before children, children in stored order), the leaves and the
    non-leaves together count every node, and [get_unmitigated_attacks] is
    the sub-list of those leaves whose mitigations are empty. *)
Theorem leaf_attacks_preorder (t : AttackTree) :
  get_all_leaf_attacks t = List.filter is_leaf (preorder (root t)) /\
  (length (get_all_leaf_attacks t)
   + length (List.filter (fun n => negb (is_leaf n)) (preorder (root t)))
   = length (preorder (root t)))%nat /\
  get_unmitigated_attacks t
  = List.filter (fun n => match mitigations n with [] => true | _ => false end)
                (get_all_leaf_attacks t) /\
  (forall n, In n (get_unmitigated_attacks t) <->
             In n (get_all_leaf_attacks t) /\ mitigations n = []).
Proof.
  assert (Hall : get_all_leaf_attacks t
                 = List.filter is_leaf (preorder (root t))).
  { unfold get_all_leaf_attacks. rewrite collect_leaves_preorder. reflexivity. }
  split; [exact Hall|]. split.
  - rewrite Hall. apply filter_split_length.
  - split; [reflexivity|].
    intros n. unfold get_unmitigated_attacks. rewrite List.filter_In.
    unfold no_mitigations. destruct (mitigations n); intuition congruence.
Qed.

Example leaf_attacks_or_tree :
  get_all_leaf_attacks or_tree = [leaf_A; leaf_B] /\
  get_unmitigated_attacks or_tree = [leaf_A].
Proof. split; reflexivity. Qed.

(** ** Serialization *)

Lemma walk_children {R : Type} (f : PyValue -> list R -> R) (d : PyValue) :
  walk f d = f d (map (walk f) (dict_children d)).
Proof.
  destruct d as [s | x | l | items]; try reflexivity.
  simpl. f_equal. unfold dict_children. simpl.
  induction items as [|[k v] rest IH]; simpl; [reflexivity|].
  destruct (String.eqb k "children"); [|exact IH].
  destruct v; reflexivity.
Qed.

Lemma node_to_dict_children (node : AttackNode) :
  dict_children (_node_to_dict node) = map _node_to_dict (children node).
Proof. destruct node. reflexivity. Qed.

Lemma node_to_dict_emitted (node : AttackNode) :
  emitted node (_node_to_dict node).
Proof. destruct node. repeat split. Qed.

Lemma rewalk_node_to_dict (node : AttackNode) :
  rewalk (_node_to_dict node) = map _node_to_dict (preorder node).
Proof.
  induction node as [i n d t a cs m cv f IH] using AttackNode_ind.
  unfold rewalk. rewrite walk_children, node_to_dict_children.
  cbn [preorder children map]. f_equal.
  rewrite List.concat_map, !map_map. f_equal.
  induction IH as [|c cs' Hc _ IHcs]; simpl; [reflexivity|].
  f_equal; [exact Hc | exact IHcs].
Qed.

Lemma dict_shape_node_to_dict (node : AttackNode) :
  dict_shape (_node_to_dict node) = node_shape node.
Proof.
  induction node as [i n d t a cs m cv f IH] using AttackNode_ind.
  unfold dict_shape. rewrite walk_children, node_to_dict_children.
  cbn [node_shape children]. f_equal. rewrite map_map.
  induction IH as [|c cs' Hc _ IHcs]; simpl; [reflexivity|].
  f_equal; [exact Hc | exact IHcs].
Qed.

(** C6: walking the ["root"] entry of [to_dict] along the nested
    ["children"] lists meets as many entries as the tree has nodes, meets
    the same ids in the same order, and has the same parent/child
    structure; each node's entry holds its id, name, description, type,
    attributes (difficulty, cost and detection risk by enum name, and
    time_hours), mitigations, file_refs and children. *)
Theorem to_dict_rewalk (t : AttackTree) :
  exists d,
    dict_get "root" (to_dict t) = Some d /\
    length (rewalk d) = length (preorder (root t)) /\
    map (dict_get "id") (rewalk d)
    = map (fun n => Some (PyStr (id n))) (preorder (root t)) /\
    dict_shape d = node_shape (root t) /\
    Forall2 emitted (preorder (root t)) (rewalk d).
Proof.
  exists (_node_to_dict (root t)). split; [reflexivity|].
  rewrite rewalk_node_to_dict. split; [apply length_map|]. split.
  - rewrite map_map. apply map_ext. intros n.
    apply (node_to_dict_emitted n).
  - split; [apply dict_shape_node_to_dict|].
    apply Forall2_fmap_r, Forall_Forall2_diag, Forall_forall.
    intros n _. apply node_to_dict_emitted.
Qed.

Example to_dict_or_tree_ids :
  map (dict_get "id") (rewalk (_node_to_dict or_root))
  = [Some (PyStr "R"); Some (PyStr "A"); Some (PyStr "B")].
Proof. reflexivity. Qed.

(** ** Mermaid export *)

(** Equalities between unions of sets of ids, element by element. *)
Ltac union_eq :=
  apply set_eq; intros ?;
  repeat rewrite elem_of_union; repeat rewrite elem_of_empty; tauto.

Lemma str_of_nat_inj (a b : nat) : str_of_nat a = str_of_nat b -> a = b.
Proof.
  unfold str_of_nat. intros H.
  apply DecimalNat.Unsigned.to_uint_inj.
  assert (Hs : Some (Nat.to_uint a) = Some (Nat.to_uint b)).
  { rewrite <- !NilEmpty.usu, H. reflexivity. }
  congruence.
Qed.

Lemma export_node_unfold (node : AttackNode) (parent_id : option string)
    (self : MermaidExporter) :
  _export_node node parent_id self
  = (fst (assign node self),
     fold_left
       (fun st child =>
          snd (_export_node child (Some (fst (assign node self))) st))
       (children node)
       (declare node (fst (assign node self)) parent_id
                (snd (assign node self)))).
Proof.
  destruct node. unfold assign, declare. cbn [_export_node id children
    node_type name].
  destruct (_node_ids self !! id0); cbn [fst snd];
    destruct (NodeType_eqb node_type0 OR), (NodeType_eqb node_type0 AND),
      (parent_truthy parent_id); reflexivity.
Qed.

Lemma assign_spec (node : AttackNode) (self : MermaidExporter) :
  memo_ok self ->
  memo_ok (snd (assign node self)) /\
  _node_ids self ⊆ _node_ids (snd (assign node self)) /\
  _node_ids (snd (assign node self)) !! id node = Some (fst (assign node self)) /\
  dom (_node_ids (snd (assign node self)))
  = dom (_node_ids self) ∪ {[id node]} /\
  _lines (snd (assign node self)) = _lines self /\
  fst (assign node self) <> EmptyString.
Proof.
  intros (Hval & Hinj & Hcount). unfold assign.
  destruct (_node_ids self !! id node) as [x|] eqn:Hlook; cbn [fst snd].
  - repeat split; try assumption; try reflexivity.
    + apply set_eq. intros k. rewrite elem_of_union, elem_of_singleton.
      split; [auto|]. intros [H | ->]; [assumption|].
      apply elem_of_dom. eauto.
    + destruct (Hval _ _ Hlook) as (k & _ & ->). discriminate.
  - split; [|split; [|split; [|split; [|split]]]].
    + split; [|split]; cbn [_node_ids _node_count].
      * intros i x Hi. destruct (decide (id node = i)) as [<-|Hne].
        -- rewrite lookup_insert_eq in Hi. injection Hi as <-.
           exists (_node_count self). split; [lia | reflexivity].
        -- rewrite lookup_insert_ne in Hi by assumption.
           destruct (Hval _ _ Hi) as (k & Hk & ->).
           exists k. split; [lia | reflexivity].
      * assert (Hfresh : forall j,
                  _node_ids self !! j
                  <> Some ("N" +:+ str_of_nat (_node_count self))).
        { intros j Hj. destruct (Hval _ _ Hj) as (k & Hk & Heq).
          injection Heq as Heq. apply str_of_nat_inj in Heq. lia. }
        intros i j x Hi Hj.
        destruct (decide (id node = i)) as [<-|Hni];
          destruct (decide (id node = j)) as [<-|Hnj]; try reflexivity.
        -- rewrite lookup_insert_eq in Hi. injection Hi as <-.
           rewrite lookup_insert_ne in Hj by assumption.
           exfalso. exact (Hfresh _ Hj).
        -- rewrite lookup_insert_eq in Hj. injection Hj as <-.
           rewrite lookup_insert_ne in Hi by assumption.
           exfalso. exact (Hfresh _ Hi).
        -- rewrite lookup_insert_ne in Hi, Hj by assumption. eauto.
      * rewrite map_size_insert_None by assumption. congruence.
    + cbn [_node_ids]. apply insert_subseteq. assumption.
    + cbn [_node_ids]. apply lookup_insert_eq.
    + cbn [_node_ids]. rewrite dom_insert_L. union_eq.
    + reflexivity.
    + discriminate.
Qed.

Lemma declare_spec (node : AttackNode) (node_id : string)
    (parent_id : option string) (self : MermaidExporter) :
  _node_ids (declare node node_id parent_id self) = _node_ids self /\
  _node_count (declare node node_id parent_id self) = _node_count self /\
  _lines (declare node node_id parent_id self)
  = _lines self
    ++ (if is_leaf node then [StyleLine node_id (_get_leaf_style node)] else [])
    ++ [NodeLine node_id (shape_of node_id node)]
    ++ (if parent_truthy parent_id
        then [EdgeLine (default EmptyString parent_id) (double_if_and node) node_id]
        else []).
Proof.
  unfold declare, shape_of, double_if_and, is_leaf.
  destruct (node_type node), (parent_truthy parent_id);
    cbn; rewrite <- ?app_assoc; repeat split; reflexivity.
Qed.

Lemma memo_ok_same (a b : MermaidExporter) :
  _node_ids a = _node_ids b -> _node_count a = _node_count b ->
  memo_ok b -> memo_ok a.
Proof. unfold memo_ok. intros -> ->. trivial. Qed.

Lemma ident_lookup (M : gmap string string) (n : AttackNode) (x : string) :
  M !! id n = Some x -> ident M n = x.
Proof. unfold ident. intros ->. reflexivity. Qed.

(** The lines of a whole subtree. *)
Lemma export_node_lines (node : AttackNode) :
  forall (parent_id : option string) (self : MermaidExporter),
    memo_ok self ->
    (forall p, parent_id = Some p -> p <> EmptyString) ->
    memo_ok (snd (_export_node node parent_id self)) /\
    _node_ids self ⊆ _node_ids (snd (_export_node node parent_id self)) /\
    _node_ids (snd (_export_node node parent_id self)) !! id node
    = Some (fst (_export_node node parent_id self)) /\
    dom (_node_ids (snd (_export_node node parent_id self)))
    = dom (_node_ids self) ∪ id_set node /\
    forall (M : gmap string string) (parent : option AttackNode),
      _node_ids (snd (_export_node node parent_id self)) ⊆ M ->
      parent_id = ident M <$> parent ->
      _lines (snd (_export_node node parent_id self))
      = _lines self ++ concat (map (visit_lines M) (visits parent node)).
Proof.
  induction node as [i n d t a cs m cv f IH] using AttackNode_ind.
  intros parent_id self Hok Hparent.
  remember (mkAttackNode i n d t a cs m cv f) as node eqn:Hnode.
  assert (Hcs : children node = cs) by (subst node; reflexivity).
  assert (Hpre : preorder node = node :: concat (map preorder cs))
    by (subst node; reflexivity).
  assert (Hvis : forall parent,
            visits parent node
            = (parent, node) :: concat (map (visits (Some node)) cs))
    by (subst node; reflexivity).
  clear Hnode.
  rewrite export_node_unfold, Hcs. cbn [fst snd].
  destruct (assign_spec node self Hok)
    as (Hok1 & Hsub1 & Hlook1 & Hdom1 & Hlines1 & Hne).
  set (x := fst (assign node self)) in *.
  destruct (declare_spec node x parent_id (snd (assign node self)))
    as (Hids2 & Hcount2 & Hlines2).
  set (s2 := declare node x parent_id (snd (assign node self))) in *.
  assert (Hok2 : memo_ok s2) by (eapply memo_ok_same; eassumption).
  (* the loop over the children *)
  assert (Hloop : forall s, memo_ok s ->
    memo_ok (fold_left
               (fun st child => snd (_export_node child (Some x) st)) cs s) /\
    _node_ids s
    ⊆ _node_ids (fold_left
                   (fun st child => snd (_export_node child (Some x) st)) cs s) /\
    dom (_node_ids (fold_left
                   (fun st child => snd (_export_node child (Some x) st)) cs s))
    = dom (_node_ids s) ∪ list_to_set (map id (concat (map preorder cs))) /\
    forall M : gmap string string,
      _node_ids (fold_left
                   (fun st child => snd (_export_node child (Some x) st)) cs s)
      ⊆ M ->
      ident M node = x ->
      _lines (fold_left
                (fun st child => snd (_export_node child (Some x) st)) cs s)
      = _lines s
        ++ concat (map (visit_lines M)
                       (concat (map (visits (Some node)) cs)))).
  { clear Hlines2 Hids2 Hcount2 Hok2 s2 Hcs Hpre Hvis.
    induction IH as [|c cs' Hc _ IHcs]; intros s Hs; cbn [fold_left].
    - split; [assumption|]. split; [reflexivity|]. split.
      + cbn [map concat list_to_set]. union_eq.
      + intros M _ _. cbn. rewrite app_nil_r. reflexivity.
    - destruct (Hc (Some x) s Hs) as (Hokc & Hsubc & _ & Hdomc & Hlinesc).
      { intros p [= <-]. assumption. }
      set (sc := snd (_export_node c (Some x) s)) in *.
      destruct (IHcs sc Hokc) as (Hok' & Hsub' & Hdom' & Hlines').
      split; [assumption|]. split; [etrans; eassumption|]. split.
      + rewrite Hdom', Hdomc. unfold id_set. cbn [map concat].
        rewrite map_app, list_to_set_app_L. union_eq.
      + intros M HM Hx. rewrite (Hlines' M HM Hx).
        rewrite (Hlinesc M (Some node)); [|etrans; eassumption|].
        * cbn [map concat]. rewrite map_app, concat_app, <- app_assoc.
          reflexivity.
        * cbn. rewrite Hx. reflexivity. }
  destruct (Hloop s2 Hok2) as (Hok' & Hsub' & Hdom' & Hlines').
  set (s' := fold_left _ cs s2) in *.
  assert (Hsub : _node_ids (snd (assign node self)) ⊆ _node_ids s').
  { rewrite <- Hids2. assumption. }
  split; [assumption|]. split; [etrans; eassumption|]. split.
  { eapply lookup_weaken; eassumption. }
  split.
  { rewrite Hdom', Hids2, Hdom1. unfold id_set. rewrite Hpre. cbn [map].
    rewrite list_to_set_cons. union_eq. }
  intros M parent HM Hpar.
  assert (Hx : ident M node = x).
  { apply ident_lookup. eapply lookup_weaken; [|eassumption].
    eapply lookup_weaken; eassumption. }
  assert (Hown :
    (if is_leaf node then [StyleLine x (_get_leaf_style node)] else [])
    ++ [NodeLine x (shape_of x node)]
    ++ (if parent_truthy parent_id
        then [EdgeLine (default EmptyString parent_id) (double_if_and node) x]
        else [])
    = visit_lines M (parent, node)).
  { unfold visit_lines, style_line, node_line, edge_line, connector_of_child.
    cbn [fst snd]. rewrite Hx. do 2 f_equal.
    destruct parent as [q|]; cbn in Hpar; subst parent_id; cbn;
      [|reflexivity].
    specialize (Hparent _ eq_refl).
    destruct (ident M q); [congruence | reflexivity]. }
  rewrite (Hlines' M HM Hx), Hlines2, Hlines1, Hvis.
  cbn [map concat]. rewrite <- Hown, <- !app_assoc. reflexivity.
Qed.

Lemma memo_ok_init (t : AttackTree) : memo_ok (init t).
Proof.
  split; [|split]; cbn.
  - intros i x H. rewrite lookup_empty in H. discriminate.
  - intros i j x H. rewrite lookup_empty in H. discriminate.
  - rewrite map_size_empty. reflexivity.
Qed.

(** Everything [export] leaves behind on a fresh exporter. *)
Lemma exported_state (t : AttackTree) :
  memo_ok (exported t) /\
  dom (_node_ids (exported t)) = id_set (root t) /\
  _lines (exported t)
  = [Header]
    ++ concat (map (visit_lines (_node_ids (exported t)))
                   (visits None (root t)))
    ++ legend_lines.
Proof.
  unfold exported, export_state. cbn [tree init _node_count _node_ids].
  set (s0 := mkMermaidExporter t [Header] 0 ∅).
  assert (Hok0 : memo_ok s0) by apply (memo_ok_init t).
  destruct (export_node_lines (root t) None s0 Hok0)
    as (Hok & _ & _ & Hdom & Hlines); [discriminate|].
  set (s1 := snd (_export_node (root t) None s0)) in *.
  split; [exact Hok|]. split.
  - cbn [_add_legend append_line _node_ids]. rewrite Hdom. cbn.
    rewrite dom_empty_L. union_eq.
  - cbn [_add_legend append_line _node_ids _lines].
    rewrite (Hlines (_node_ids s1) None); [|reflexivity|reflexivity].
    cbn [_lines s0]. unfold legend_lines. rewrite <- !app_assoc. reflexivity.
Qed.

Lemma visits_preorder (parent : option AttackNode) (node : AttackNode) :
  map snd (visits parent node) = preorder node.
Proof.
  revert parent.
  induction node as [i n d t a cs m cv f IH] using AttackNode_ind.
  intros parent. cbn [visits preorder children map snd]. f_equal.
  rewrite List.concat_map, map_map. f_equal.
  generalize (Some (mkAttackNode i n d t a cs m cv f)). intros q.
  induction IH as [|c cs' Hc _ IHcs]; cbn [map]; [reflexivity|].
  rewrite Hc, IHcs. reflexivity.
Qed.

Section VisitLines.
Variable M : gmap string string.

Lemma node_lines_of_visits (vs : list (option AttackNode * AttackNode)) :
  List.filter is_node_line (concat (map (visit_lines M) vs))
  = map (node_line M) (map snd vs).
Proof.
  induction vs as [|[p n] vs IH]; cbn [map concat snd]; [reflexivity|].
  rewrite List.filter_app, IH. f_equal.
  unfold visit_lines, edge_line. cbn [fst snd].
  destruct (is_leaf n), p; reflexivity.
Qed.

Lemma edge_lines_of_visits (vs : list (option AttackNode * AttackNode)) :
  List.filter is_edge_line (concat (map (visit_lines M) vs))
  = concat (map (edge_line connector_of_child M) vs).
Proof.
  induction vs as [|[p n] vs IH]; cbn [map concat]; [reflexivity|].
  rewrite List.filter_app, IH. f_equal.
  unfold visit_lines, edge_line. cbn [fst snd].
  destruct (is_leaf n), p; reflexivity.
Qed.

Lemma style_lines_of_visits (vs : list (option AttackNode * AttackNode)) :
  List.filter is_style_line (concat (map (visit_lines M) vs))
  = map (style_line M) (List.filter is_leaf (map snd vs)).
Proof.
  induction vs as [|[p n] vs IH]; cbn [map concat snd]; [reflexivity|].
  rewrite List.filter_app, IH. cbn [List.filter].
  unfold visit_lines, edge_line. cbn [fst snd].
  destruct (is_leaf n), p; reflexivity.
Qed.

(** One edge per visit that has a parent. *)
Lemma edge_count (connector : AttackNode -> AttackNode -> string)
    (vs : list (option AttackNode * AttackNode)) :
  length (concat (map (edge_line connector M) vs))
  = length (List.filter (fun v => bool_decide (is_Some (fst v))) vs).
Proof.
  induction vs as [|[p n] vs IH]; cbn [map concat]; [reflexivity|].
  rewrite length_app, IH. unfold edge_line. cbn [fst snd List.filter].
  destruct p; reflexivity.
Qed.
End VisitLines.

(** Below the first visit every visit has a parent. *)
Lemma visits_parents (parent : option AttackNode) (node : AttackNode) :
  length (List.filter (fun v => bool_decide (is_Some (fst v)))
                      (visits parent node))
  = (match parent with Some _ => 1 | None => 0 end
     + (length (preorder node) - 1))%nat.
Proof.
  revert parent.
  induction node as [i n d t a cs m cv f IH] using AttackNode_ind.
  intros parent. cbn [visits preorder children List.filter fst length].
  assert (Hcs : forall q,
    length (List.filter (fun v => bool_decide (is_Some (fst v)))
              (concat (map (visits (Some q)) cs)))
    = length (concat (map preorder cs))).
  { intros q. induction IH as [|c cs' Hc _ IHcs]; cbn [map concat];
      [reflexivity|].
    rewrite List.filter_app, !length_app, Hc, IHcs.
    destruct (preorder c) eqn:Hp; [destruct c; discriminate|].
    cbn [length]. lia. }
  rewrite Nat.sub_succ, Nat.sub_0_r, <- (Hcs (mkAttackNode i n d t a cs m cv f)).
  destruct parent; cbn; lia.
Qed.

Lemma filter_header_legend (f : Line -> bool) (body : list Line) :
  f Header = false -> (forall s, f (LegendLine s) = false) ->
  List.filter f ([Header] ++ body ++ legend_lines) = List.filter f body.
Proof.
  intros Hh Hl. rewrite !List.filter_app. cbn. rewrite Hh, !Hl.
  apply app_nil_r.
Qed.

Lemma exported_node_lines (t : AttackTree) :
  node_lines (exported t)
  = map (node_line (_node_ids (exported t))) (preorder (root t)).
Proof.
  unfold node_lines. destruct (exported_state t) as (_ & _ & ->).
  rewrite filter_header_legend by reflexivity.
  rewrite node_lines_of_visits, visits_preorder. reflexivity.
Qed.

Lemma exported_edge_lines (t : AttackTree) :
  edge_lines (exported t)
  = concat (map (edge_line connector_of_child (_node_ids (exported t)))
                (visits None (root t))).
Proof.
  unfold edge_lines. destruct (exported_state t) as (_ & _ & ->).
  rewrite filter_header_legend by reflexivity.
  apply edge_lines_of_visits.
Qed.

Lemma exported_style_lines (t : AttackTree) :
  style_lines (exported t)
  = map (style_line (_node_ids (exported t)))
        (List.filter is_leaf (preorder (root t))).
Proof.
  unfold style_lines. destruct (exported_state t) as (_ & _ & ->).
  rewrite filter_header_legend by reflexivity.
  rewrite style_lines_of_visits, visits_preorder. reflexivity.
Qed.

Lemma exported_memo_total (t : AttackTree) (n : AttackNode) :
  In n (preorder (root t)) ->
  _node_ids (exported t) !! id n = Some (ident (_node_ids (exported t)) n).
Proof.
  intros Hn. destruct (exported_state t) as (_ & Hdom & _).
  assert (Hin : id n ∈ dom (_node_ids (exported t))).
  { rewrite Hdom. unfold id_set. apply elem_of_list_to_set.
    apply list_elem_of_In, in_map. assumption. }
  apply elem_of_dom in Hin as [x Hx]. unfold ident. rewrite Hx. reflexivity.
Qed.

Lemma ident_NoDup (M : gmap string string) (l : list AttackNode) :
  (forall i j x, M !! i = Some x -> M !! j = Some x -> i = j) ->
  (forall n, In n l -> is_Some (M !! id n)) ->
  NoDup (map id l) -> NoDup (map (ident M) l).
Proof.
  intros Hinj. induction l as [|a l IH]; intros Htot Hnd; cbn [map] in *.
  - constructor.
  - apply NoDup_cons in Hnd as [Ha Hl]. apply NoDup_cons. split.
    + intros Hin. apply Ha.
      apply list_elem_of_In, in_map_iff in Hin as (b & Hb & Hbl).
      destruct (Htot a (or_introl eq_refl)) as [x Hx].
      destruct (Htot b (or_intror Hbl)) as [y Hy].
      unfold ident in Hb. rewrite Hx, Hy in Hb. cbn in Hb. subst y.
      rewrite (Hinj _ _ _ Hx Hy).
      apply list_elem_of_In, in_map. assumption.
    + apply IH; [|assumption]. intros n Hn. apply Htot. right. assumption.
Qed.

(** C4, as amended: every node with a parent gets exactly one edge line,
    from its parent's diagram identifier to its own, in visiting order,
    and the connector is [==>] exactly when the node itself (the head of
    the edge) is an AND node; the identifiers are the ones the node
    declarations carry. *)
Theorem export_edges_by_child (t : AttackTree) :
  edge_lines (exported t)
  = concat (map (edge_line connector_of_child (_node_ids (exported t)))
                (visits None (root t))) /\
  node_lines (exported t)
  = map (node_line (_node_ids (exported t))) (preorder (root t)) /\
  (forall parent child,
     connector_of_child parent child = "==>" <-> node_type child = AND) /\
  (forall parent child,
     connector_of_child parent child = "-->" <-> node_type child <> AND).
Proof.
  split; [apply exported_edge_lines|]. split; [apply exported_node_lines|].
  unfold connector_of_child, double_if_and.
  split; intros _ child; destruct (node_type child); cbn;
    split; congruence.
Qed.

(** C4, as stated, fails: under an AND root with two leaves the claim
    asks for two [==>] edges, and both edges emitted are [-->]. *)
Lemma export_edges_by_parent_fails :
  edge_lines (exported and_tree)
  = [EdgeLine "N0" "-->" "N1"; EdgeLine "N0" "-->" "N2"] /\
  concat (map (edge_line connector_of_parent (_node_ids (exported and_tree)))
              (visits None (root and_tree)))
  = [EdgeLine "N0" "==>" "N1"; EdgeLine "N0" "==>" "N2"] /\
  edge_lines (exported and_tree)
  <> concat (map (edge_line connector_of_parent (_node_ids (exported and_tree)))
                 (visits None (root and_tree))).
Proof.
  assert (Hcode : edge_lines (exported and_tree)
                  = [EdgeLine "N0" "-->" "N1"; EdgeLine "N0" "-->" "N2"])
    by (vm_compute; reflexivity).
  assert (Hclaim :
    concat (map (edge_line connector_of_parent (_node_ids (exported and_tree)))
                (visits None (root and_tree)))
    = [EdgeLine "N0" "==>" "N1"; EdgeLine "N0" "==>" "N2"])
    by (vm_compute; reflexivity).
  split; [exact Hcode|]. split; [exact Hclaim|].
  rewrite Hcode, Hclaim. discriminate.
Qed.

(** C7: when the ids of a tree are pairwise distinct, the export holds
    one declaration line per node, as many as there are distinct ids,
    each with its own diagram identifier, and one edge line per node
    other than the root. *)
Theorem export_line_counts (t : AttackTree) :
  NoDup (map id (preorder (root t))) ->
  length (node_lines (exported t)) = length (preorder (root t)) /\
  length (node_lines (exported t)) = size (id_set (root t)) /\
  NoDup (map line_node_id (node_lines (exported t))) /\
  length (edge_lines (exported t)) = (length (preorder (root t)) - 1)%nat.
Proof.
  intros Hnd.
  assert (Hlen : length (node_lines (exported t)) = length (preorder (root t))).
  { rewrite exported_node_lines. apply length_map. }
  split; [exact Hlen|]. split; [|split].
  - rewrite Hlen. unfold id_set.
    rewrite size_list_to_set by assumption. rewrite length_map. reflexivity.
  - rewrite exported_node_lines, map_map. cbn [node_line line_node_id].
    destruct (exported_state t) as ((_ & Hinj & _) & _ & _).
    apply ident_NoDup; [assumption| |assumption].
    intros n Hn. rewrite (exported_memo_total t n Hn). eauto.
  - rewrite exported_edge_lines, edge_count, visits_parents. reflexivity.
Qed.

Lemma export_line_counts_witness :
  length (node_lines (exported or_tree)) = length (preorder (root or_tree)) /\
  length (node_lines (exported or_tree)) = size (id_set (root or_tree)) /\
  NoDup (map line_node_id (node_lines (exported or_tree))) /\
  length (edge_lines (exported or_tree))
  = (length (preorder (root or_tree)) - 1)%nat.
Proof.
  apply (export_line_counts or_tree).
  apply (bool_decide_unpack _). vm_compute. reflexivity.
Defined.

Lemma colors_get_in (d : Difficulty.t) (default : string) :
  In (d, colors_get colors d default) colors.
Proof. destruct d; cbn; tauto. Qed.

(** C8: the style directives of an export are those of its LEAF nodes, in
    visiting order, each with the value of [_get_leaf_style]; that value
    is the mitigated combination exactly when the leaf has a mitigation,
    and otherwise the entry of the five-entry colour table for the leaf's
    difficulty. *)
Theorem export_leaf_styles (t : AttackTree) :
  style_lines (exported t)
  = map (fun n => StyleLine (ident (_node_ids (exported t)) n)
                            (_get_leaf_style n))
        (List.filter is_leaf (preorder (root t))) /\
  length colors = 5%nat /\
  forall n : AttackNode,
    (_get_leaf_style n = mitigated_style <-> mitigations n <> []) /\
    (mitigations n = [] ->
       In (difficulty (attributes n), _get_leaf_style n) colors).
Proof.
  split; [apply exported_style_lines|]. split; [reflexivity|].
  intros n. unfold _get_leaf_style, mitigated_style.
  destruct (mitigations n) as [|mit mits]; cbn [negb str_truthy]; split.
  - split; [|congruence].
    destruct (difficulty (attributes n)); cbn; discriminate.
  - intros _. apply colors_get_in.
  - split; [discriminate | reflexivity].
  - discriminate.
Qed.

Example leaf_styles_or_tree :
  map render_line (style_lines (exported or_tree))
  = ["    style N1 fill:#ff6b6b,stroke:#c92a2a,stroke-width:3px";
     "    style N2 fill:#d3f9d8,stroke:#51cf66,stroke-width:3px"].
Proof. vm_compute. reflexivity. Qed.

(** C9: two nodes of a tree with the same id are declared under the same
    diagram identifier, the one the memo holds for that id; the counter
    ends at the number of distinct ids, so no identifier is minted for the
    second occurrence. *)
Theorem export_shared_id (t : AttackTree) (i j : nat) (n m : AttackNode) :
  preorder (root t) !! i = Some n ->
  preorder (root t) !! j = Some m ->
  i <> j ->
  id n = id m ->
  exists x : string,
    _node_ids (exported t) !! id n = Some x /\
    map line_node_id (node_lines (exported t)) !! i = Some x /\
    map line_node_id (node_lines (exported t)) !! j = Some x /\
    _node_count (exported t) = size (id_set (root t)).
Proof.
  intros Hi Hj _ Hid.
  assert (Hcount : _node_count (exported t) = size (id_set (root t))).
  { destruct (exported_state t) as ((_ & _ & Hcount) & Hdom & _).
    rewrite Hcount, <- Hdom. symmetry. apply size_dom. }
  exists (ident (_node_ids (exported t)) n).
  split.
  { apply exported_memo_total, list_elem_of_In.
    eapply list_elem_of_lookup_2. eassumption. }
  rewrite exported_node_lines, map_map.
  rewrite !list_lookup_fmap, Hi, Hj.
  split; [reflexivity|]. split; [|exact Hcount].
  cbn [fmap option_fmap option_map node_line line_node_id].
  unfold ident. rewrite Hid. reflexivity.
Qed.

Lemma export_shared_id_witness :
  exists x : string,
    _node_ids (exported dup_tree) !! id dup_first = Some x /\
    map line_node_id (node_lines (exported dup_tree)) !! 1%nat = Some x /\
    map line_node_id (node_lines (exported dup_tree)) !! 2%nat = Some x /\
    _node_count (exported dup_tree) = size (id_set (root dup_tree)).
Proof.
  apply (export_shared_id dup_tree 1 2 dup_first dup_second);
    [reflexivity | reflexivity | lia | reflexivity].
Defined.

(** The text exported for the tree with the shared id: both leaves are
    declared as [N1]. *)
Example export_dup_tree :
  map render_line (node_lines (exported dup_tree))
  = ["    N0(('goal')"; "    N1['first']"; "    N1['second']"] /\
  map render_line (edge_lines (exported dup_tree))
  = ["    N0 --> N1"; "    N0 --> N1"].
Proof. vm_compute. split; reflexivity. Qed.

(** The whole text exported for the OR sample. *)
Example export_or_tree_text :
  export (init or_tree)
  = String.concat newline [
      "flowchart TD";
      "    N0(('goal')";
      "    style N1 fill:#ff6b6b,stroke:#c92a2a,stroke-width:3px";
      "    N1['leaf A']";
      "    N0 --> N1";
      "    style N2 fill:#d3f9d8,stroke:#51cf66,stroke-width:3px";
      "    N2['leaf B']";
      "    N0 --> N2";
      EmptyString;
      "    classDef trivial fill:#ff6b6b,stroke:#c92a2a,stroke-width:3px";
      "    classDef low fill:#ffa06b,stroke:#e67700,stroke-width:2px";
      "    classDef medium fill:#ffd93d,stroke:#fab005,stroke-width:2px";
      "    classDef high fill:#6bcb77,stroke:#2f9e44,stroke-width:2px";
      "    classDef expert fill:#4d96ff,stroke:#1971c2,stroke-width:2px"
    ].
Proof. vm_compute. reflexivity. Qed.

(** * Further properties *)

(** ** Path search as a whole *)

Lemma all_paths_leaf (node : AttackNode) :
  node_type node = LEAF -> all_paths node = [[node]].
Proof. intros H. destruct node; simpl in *. rewrite H. reflexivity. Qed.

Lemma all_paths_childless (node : AttackNode) :
  children node = [] -> all_paths node = [[node]].
Proof.
  intros H. destruct node; simpl in *. rewrite H.
  destruct (NodeType_eqb _ _); reflexivity.
Qed.

Lemma all_paths_or (node : AttackNode) :
  node_type node = OR -> children node <> [] ->
  all_paths node = map (cons node) (concat (map all_paths (children node))).
Proof.
  intros Hk Hc. destruct node; simpl in *. rewrite Hk. simpl.
  destruct children0; [congruence | reflexivity].
Qed.

Lemma all_paths_and (node : AttackNode) :
  node_type node = AND -> children node <> [] ->
  all_paths node
  = map (fun ps => node :: concat ps) (product (map all_paths (children node))).
Proof.
  intros Hk Hc. destruct node; simpl in *. rewrite Hk. simpl.
  destruct children0; [congruence | reflexivity].
Qed.

Lemma in_product {A : Type} (ls : list (list A)) (xs : list A) :
  In xs (product ls) <-> Forall2 (fun x l => In x l) xs ls.
Proof.
  revert xs. induction ls as [|l ls IH]; intros xs; cbn [product].
  - split.
    + intros [<- | []]. constructor.
    + intros H. inversion H. left. reflexivity.
  - rewrite in_concat. split.
    + intros (ys & Hys & Hxs). apply in_map_iff in Hys as (x & <- & Hx).
      apply in_map_iff in Hxs as (zs & <- & Hzs).
      constructor; [assumption | apply IH; assumption].
    + intros H. inversion H as [|x l' zs ls' Hx Hzs]; subst.
      exists (map (cons x) (product ls)). split.
      * apply in_map_iff. exists x. split; [reflexivity | assumption].
      * apply in_map. apply IH. assumption.
Qed.

Lemma path_score_inner_cons (n : AttackNode) (p : list AttackNode)
    (metric : string) :
  node_type n <> LEAF -> _path_score (n :: p) metric = _path_score p metric.
Proof.
  intros Hk. rewrite path_score_cons, path_score_inner by assumption. lia.
Qed.

(** The four shapes a node can have for the search. *)
Lemma node_cases (node : AttackNode) :
  node_type node = LEAF \/
  children node = [] \/
  (node_type node = OR /\ children node <> []) \/
  (node_type node = AND /\ children node <> []).
Proof.
  destruct (node_type node); destruct (children node);
    first [ left; reflexivity
          | right; left; reflexivity
          | right; right; left; split; congruence
          | right; right; right; split; congruence ].
Qed.

Lemma Forall_lookup_child (P : AttackNode -> Prop) (cs : list AttackNode)
    (i : nat) (c : AttackNode) :
  Forall P cs -> cs !! i = Some c -> P c.
Proof. intros H Hi. exact (proj1 (Forall_lookup P cs) H i c Hi). Qed.

Lemma find_path_min_candidate (node : AttackNode) (minimize : string) :
  In (_find_path node minimize) (all_paths node) /\
  forall p, In p (all_paths node) ->
    _path_score (_find_path node minimize) minimize <= _path_score p minimize.
Proof.
  induction node as [i n d t a cs m cv f IH] using AttackNode_ind.
  remember (mkAttackNode i n d t a cs m cv f) as node eqn:Hnode.
  assert (Hcs : children node = cs) by (subst node; reflexivity).
  clear Hnode.
  destruct (node_cases node) as [Hk | [Hc | [[Hk Hc] | [Hk Hc]]]].
  - rewrite find_path_leaf, all_paths_leaf by assumption.
    split; [left; reflexivity|]. intros p [<- | []]. lia.
  - rewrite find_path_childless, all_paths_childless by assumption.
    split; [left; reflexivity|]. intros p [<- | []]. lia.
  - destruct (or_loop_state_child node minimize Hc)
      as (k & child & Hchild & Hst & Hmin & _).
    assert (Hpath : _find_path node minimize
                    = node :: _find_path child minimize).
    { rewrite (find_path_or node), Hst by assumption. simpl.
      destruct (find_path_head child minimize) as [rest ->]. reflexivity. }
    rewrite Hpath, all_paths_or by assumption. rewrite Hcs in *. split.
    + apply in_map, in_concat. exists (all_paths child). split.
      * apply in_map. apply list_elem_of_In.
        eapply list_elem_of_lookup_2. eassumption.
      * exact (proj1 (Forall_lookup_child _ _ _ _ IH Hchild)).
    + intros p Hp. apply in_map_iff in Hp as (q & <- & Hq).
      apply in_concat in Hq as (qs & Hqs & Hq).
      apply in_map_iff in Hqs as (c & <- & Hcin).
      apply list_elem_of_In, list_elem_of_lookup in Hcin as [j Hj].
      rewrite !(path_score_inner_cons node) by congruence.
      pose proof (proj2 (Forall_lookup_child _ _ _ _ IH Hj) q Hq).
      pose proof (Hmin j c Hj). lia.
  - rewrite find_path_and, all_paths_and by assumption. rewrite Hcs in *.
    split.
    + apply in_map_iff. exists (map (fun c => _find_path c minimize) cs).
      split; [reflexivity|]. apply in_product.
      clear Hc Hcs. induction IH as [|c cs' [Hin _] _ IHcs]; cbn [map];
        constructor; assumption.
    + intros p Hp. apply in_map_iff in Hp as (ps & <- & Hps).
      apply in_product in Hps.
      rewrite !(path_score_inner_cons node) by congruence.
      rewrite !path_score_concat, map_map.
      clear Hc Hcs. revert ps Hps.
      induction IH as [|c cs' [_ Hle] _ IHcs]; intros ps Hps;
        inversion Hps as [|q l' qs ls' Hq Hqs]; subst; cbn [map].
      * lia.
      * rewrite !sum_cons. specialize (Hle q Hq).
        specialize (IHcs qs Hqs). lia.
Qed.

(** X1: the path [_find_path] returns is one of the node's candidate paths
    (one child chosen at every OR node, all children taken at every AND
    node), and no candidate path scores less under the metric. *)
Theorem find_path_optimal (node : AttackNode) (minimize : string) :
  In (_find_path node minimize) (all_paths node) /\
  forall p, In p (all_paths node) ->
    _path_score (_find_path node minimize) minimize <= _path_score p minimize.
Proof. apply find_path_min_candidate. Qed.

Example all_paths_or_root : all_paths or_root = [[or_root; leaf_A]; [or_root; leaf_B]].
Proof. reflexivity. Qed.

Lemma sublist_concat_map {A B : Type} (f g : A -> list B) (l : list A) :
  Forall (fun x => sublist (f x) (g x)) l ->
  sublist (concat (map f l)) (concat (map g l)).
Proof.
  induction 1 as [|x l Hx _ IH]; cbn [map concat].
  - constructor.
  - apply sublist_app; assumption.
Qed.

Lemma sublist_concat_member {A B : Type} (g : A -> list B) (l : list A)
    (i : nat) (x : A) (p : list B) :
  l !! i = Some x -> sublist p (g x) -> sublist p (concat (map g l)).
Proof.
  revert i. induction l as [|y l IH]; intros [|i] Hi Hp; try discriminate.
  - injection Hi as ->. cbn [map concat]. apply sublist_inserts_r. assumption.
  - cbn [map concat]. apply sublist_inserts_l. eapply IH; eassumption.
Qed.

(** X2: the path returned for a node is a sub-list of the node's
    pre-order listing: it starts with the node, holds only nodes of the
    subtree, in traversal order and no more often than the subtree holds
    them, so it is never longer than the subtree has nodes. *)
Theorem find_path_sublist (node : AttackNode) (minimize : string) :
  sublist (_find_path node minimize) (preorder node) /\
  head (_find_path node minimize) = Some node /\
  (forall n, In n (_find_path node minimize) -> In n (preorder node)) /\
  (length (_find_path node minimize) <= length (preorder node))%nat.
Proof.
  assert (Hsub : sublist (_find_path node minimize) (preorder node)).
  { induction node as [i n d t a cs m cv f IH] using AttackNode_ind.
    remember (mkAttackNode i n d t a cs m cv f) as node eqn:Hnode.
    assert (Hcs : children node = cs) by (subst node; reflexivity).
    assert (Hpre : preorder node = node :: concat (map preorder cs))
      by (subst node; reflexivity).
    clear Hnode. rewrite Hpre.
    destruct (node_cases node) as [Hk | [Hc | [[Hk Hc] | [Hk Hc]]]].
    - rewrite find_path_leaf by assumption.
      apply sublist_skip, sublist_nil_l.
    - rewrite find_path_childless by assumption.
      apply sublist_skip, sublist_nil_l.
    - destruct (or_loop_state_child node minimize Hc)
        as (k & child & Hchild & Hst & _).
      rewrite (find_path_or node), Hst by assumption. cbn [fst app].
      destruct (find_path_head child minimize) as [rest Hrest].
      rewrite Hcs in Hchild.
      pose proof (Forall_lookup_child _ _ _ _ IH Hchild) as Hchildsub.
      cbv beta in Hchildsub. rewrite Hrest in *. cbn [or_empty].
      apply sublist_skip.
      exact (sublist_concat_member preorder cs k child _ Hchild Hchildsub).
    - rewrite find_path_and, Hcs by assumption.
      apply sublist_skip, sublist_concat_map. assumption. }
  split; [exact Hsub|]. split; [|split].
  - destruct (find_path_head node minimize) as [rest ->]. reflexivity.
  - intros n Hn. apply list_elem_of_In.
    eapply elem_of_sublist; [|eassumption].
    apply list_elem_of_In. assumption.
  - apply sublist_length. assumption.
Qed.

(** X3: a score is never negative and never more than five per LEAF of the
    path (the largest value any of the three metrics gives a leaf). *)
Theorem path_score_bounds (path : list AttackNode) (metric : string) :
  0 <= _path_score path metric
  <= 5 * Z.of_nat (length (List.filter is_leaf path)).
Proof.
  induction path as [|n path IH].
  - rewrite path_score_nil. simpl. lia.
  - rewrite path_score_cons. cbn [List.filter].
    assert (Hn : 0 <= _path_score [n] metric
                 <= if is_leaf n then 5 else 0).
    { unfold _path_score. cbn [List.filter].
      destruct (is_leaf n); cbn [map]; unfold sum; cbn [fold_left].
      - repeat case_match; try lia.
        + destruct (difficulty (attributes n)); cbn; lia.
        + destruct (cost (attributes n)); cbn; lia.
        + destruct (detection_risk (attributes n)); cbn; lia.
      - repeat case_match; lia. }
    destruct (is_leaf n); cbn [length]; lia.
Qed.

(** X4: under a metric name other than ["difficulty"], ["cost"] and
    ["detection"] every path scores 0, so an OR node keeps its first
    child. *)
Theorem find_path_unknown_metric (node : AttackNode) (minimize : string) :
  minimize <> "difficulty" -> minimize <> "cost" -> minimize <> "detection" ->
  (forall path, _path_score path minimize = 0) /\
  (forall c cs, node_type node = OR -> children node = c :: cs ->
     _find_path node minimize = node :: _find_path c minimize).
Proof.
  intros Hd Hc Hr.
  assert (Hzero : forall path, _path_score path minimize = 0).
  { intros path. unfold _path_score.
    apply String.eqb_neq in Hd, Hc, Hr. rewrite Hd, Hc, Hr. reflexivity. }
  split; [exact Hzero|].
  intros c cs Hk Hcs.
  assert (Hne : children node <> []) by (rewrite Hcs; discriminate).
  destruct (or_loop_state_child node minimize Hne)
    as (k & child & Hchild & Hst & _ & Hfirst).
  rewrite (find_path_or node), Hst by assumption. simpl.
  destruct (find_path_head child minimize) as [rest Hrest].
  rewrite Hrest. rewrite <- Hrest. f_equal.
  destruct k as [|k].
  - rewrite Hcs in Hchild. injection Hchild as ->. reflexivity.
  - specialize (Hfirst 0%nat c). rewrite Hcs in Hfirst.
    specialize (Hfirst ltac:(lia) eq_refl). rewrite !Hzero in Hfirst. lia.
Qed.

Lemma find_path_unknown_metric_witness :
  (forall path, _path_score path "stealth" = 0) /\
  (forall c cs, node_type or_root = OR -> children or_root = c :: cs ->
     _find_path or_root "stealth" = or_root :: _find_path c "stealth").
Proof.
  apply (find_path_unknown_metric or_root "stealth"); discriminate.
Defined.

Lemma path_score_nonneg (path : list AttackNode) (metric : string) :
  0 <= _path_score path metric.
Proof.
  induction path as [|n path IH].
  - rewrite path_score_nil. lia.
  - rewrite path_score_cons.
    assert (0 <= _path_score [n] metric); [|lia].
    unfold _path_score. cbn [List.filter].
    destruct (is_leaf n); cbn [map]; unfold sum; cbn [fold_left];
      repeat case_match; try lia.
    + destruct (difficulty (attributes n)); cbn; lia.
    + destruct (cost (attributes n)); cbn; lia.
    + destruct (detection_risk (attributes n)); cbn; lia.
Qed.

Lemma difficulty_score_leaf (path : list AttackNode) (l : AttackNode) :
  In l path -> node_type l = LEAF -> 1 <= _path_score path "difficulty".
Proof.
  intros Hin Hk. induction path as [|n path IH]; [destruct Hin|].
  rewrite path_score_cons.
  pose proof (path_score_nonneg [n] "difficulty").
  pose proof (path_score_nonneg path "difficulty").
  destruct Hin as [-> | Hin]; [|specialize (IH Hin); lia].
  assert (1 <= _path_score [l] "difficulty"); [|lia].
  unfold _path_score, is_leaf. cbn. rewrite Hk. cbn. unfold sum. cbn.
  destruct (difficulty (attributes l)); cbn; lia.
Qed.

Lemma last_concat_ends {A : Type} (P : A -> Prop) (ps : list (list A)) :
  ps <> [] ->
  Forall (fun p => exists l, last p = Some l /\ P l) ps ->
  exists l, last (concat ps) = Some l /\ P l.
Proof.
  intros Hne Hall. induction Hall as [|p ps' (l & Hl & HP) Hrest IH];
    [congruence|]. cbn [concat]. rewrite last_app.
  destruct ps' as [|q ps''].
  - cbn. exists l. split; assumption.
  - destruct IH as (l' & -> & HP'); [discriminate|].
    exists l'. split; [reflexivity | assumption].
Qed.

Lemma scorable_unfold (node : AttackNode) :
  scorable node = true ->
  (node_type node = LEAF \/ children node <> []) /\
  Forall (fun c => scorable c = true) (children node).
Proof.
  destruct node as [i n d t a cs m cv f]. cbn [scorable children node_type].
  intros H. apply andb_prop in H as [Hhere Hbelow]. split.
  - apply orb_prop in Hhere as [Hl | Hc].
    + left. unfold is_leaf in Hl. cbn in Hl.
      destruct t; cbn in Hl; congruence.
    + right. destruct cs; congruence.
  - apply Forall_forall. intros c Hc. apply list_elem_of_In in Hc.
    exact (proj1 (forallb_forall scorable cs) Hbelow c Hc).
Qed.

(** X5: when every OR and AND node of the subtree has a child, the path
    returned ends in a LEAF, whatever the metric, so its difficulty score
    is at least 1. *)
Theorem find_path_reaches_leaf (node : AttackNode) (minimize : string) :
  scorable node = true ->
  (exists l, last (_find_path node minimize) = Some l /\ node_type l = LEAF) /\
  1 <= _path_score (_find_path node "difficulty") "difficulty".
Proof.
  assert (Hlast : forall m, scorable node = true ->
            exists l, last (_find_path node m) = Some l /\ node_type l = LEAF).
  { intros m.
    induction node as [i n d t a cs mi cv f IH] using AttackNode_ind.
    remember (mkAttackNode i n d t a cs mi cv f) as node eqn:Hnode.
    assert (Hcs : children node = cs) by (subst node; reflexivity).
    clear Hnode. intros Hs.
    apply scorable_unfold in Hs as [Hhere Hbelow]. rewrite Hcs in *.
    destruct (node_cases node) as [Hk | [Hc | [[Hk Hc] | [Hk Hc]]]].
    - rewrite find_path_leaf by assumption. exists node. split; trivial.
    - destruct Hhere as [Hk|]; [|congruence].
      rewrite find_path_leaf by assumption. exists node. split; trivial.
    - destruct (or_loop_state_child node m Hc)
        as (k & child & Hchild & Hst & _).
      rewrite (find_path_or node), Hst by assumption. cbn [fst app].
      rewrite Hcs in Hchild.
      destruct (Forall_lookup_child _ _ _ _ IH Hchild
                  (Forall_lookup_child _ _ _ _ Hbelow Hchild))
        as (l & Hl & HP).
      destruct (find_path_head child m) as [rest Hrest].
      rewrite Hrest in *. cbn [or_empty]. rewrite last_cons, Hl.
      exists l. split; trivial.
    - rewrite find_path_and, Hcs by assumption.
      assert (Hends : exists l,
                last (concat (map (fun c => _find_path c m) cs)) = Some l
                /\ node_type l = LEAF).
      { apply (last_concat_ends (fun l => node_type l = LEAF)).
        - rewrite Hcs in Hc. destruct cs; [congruence | discriminate].
        - clear Hc Hhere Hcs.
          induction IH as [|c cs' Hc' _ IHcs]; cbn [map]; constructor.
          + apply Hc'. apply Forall_inv in Hbelow. assumption.
          + apply IHcs. apply Forall_inv_tail in Hbelow. assumption. }
      destruct Hends as (l & Hl & HP).
      rewrite last_cons, Hl. exists l. split; trivial. }
  intros Hs. split; [apply Hlast; assumption|].
  destruct (Hlast "difficulty" Hs) as (l & Hl & HP).
  apply (difficulty_score_leaf _ l); [|assumption].
  apply list_elem_of_In. apply last_Some_elem_of. assumption.
Qed.

Lemma find_path_reaches_leaf_witness :
  (exists l, last (_find_path and_root "cost") = Some l /\ node_type l = LEAF) /\
  1 <= _path_score (_find_path and_root "difficulty") "difficulty".
Proof. apply (find_path_reaches_leaf and_root "cost"). reflexivity. Defined.

(** ** [add_child] and the operations on the grown tree *)

Lemma or_empty_find_path (c : AttackNode) (minimize : string) :
  or_empty (Some (_find_path c minimize)) = _find_path c minimize.
Proof.
  destruct (find_path_head c minimize) as [rest ->]. reflexivity.
Qed.

Lemma or_loop_state_add_child (n c : AttackNode) (minimize : string) :
  or_loop_state (add_child n c) minimize
  = or_step (_find_path c minimize) minimize (or_loop_state n minimize).
Proof.
  unfold or_loop_state, add_child. cbn [children].
  rewrite fold_left_app. reflexivity.
Qed.

(** X6: for a node that already has children, [add_child] changes the
    best score in the expected way: at an OR node it becomes the smaller
    of the old score and the new child's, at an AND node the old score
    plus the new child's. *)
Theorem add_child_score (n c : AttackNode) (minimize : string) :
  children n <> [] ->
  (node_type n = OR ->
     _path_score (_find_path (add_child n c) minimize) minimize
     = Z.min (_path_score (_find_path n minimize) minimize)
             (_path_score (_find_path c minimize) minimize)) /\
  (node_type n = AND ->
     _path_score (_find_path (add_child n c) minimize) minimize
     = _path_score (_find_path n minimize) minimize
       + _path_score (_find_path c minimize) minimize).
Proof.
  intros Hc.
  assert (Hc' : children (add_child n c) <> []).
  { unfold add_child. cbn [children]. destruct (children n); discriminate. }
  split; intros Hk.
  - assert (Hk' : node_type (add_child n c) = OR) by exact Hk.
    destruct (or_loop_state_child n minimize Hc)
      as (k & child & _ & Hst & _).
    rewrite (find_path_or (add_child n c)), (find_path_or n) by assumption.
    rewrite or_loop_state_add_child, Hst. cbn [fst app].
    rewrite !path_score_inner_cons by congruence.
    unfold or_step. cbn [snd score_lt].
    destruct (_ <? _) eqn:Hlt; cbn [fst]; rewrite !or_empty_find_path.
    + apply Z.ltb_lt in Hlt. lia.
    + apply Z.ltb_ge in Hlt. lia.
  - assert (Hk' : node_type (add_child n c) = AND) by exact Hk.
    rewrite (find_path_and (add_child n c)), (find_path_and n) by assumption.
    rewrite !path_score_inner_cons by congruence.
    unfold add_child at 1. cbn [children].
    rewrite map_app, concat_app, path_score_app. cbn [map concat].
    rewrite app_nil_r. reflexivity.
Qed.

Lemma add_child_score_witness :
  (node_type or_root = OR ->
     _path_score (_find_path (add_child or_root leaf_B) "cost") "cost"
     = Z.min (_path_score (_find_path or_root "cost") "cost")
             (_path_score (_find_path leaf_B "cost") "cost")) /\
  (node_type or_root = AND ->
     _path_score (_find_path (add_child or_root leaf_B) "cost") "cost"
     = _path_score (_find_path or_root "cost") "cost"
       + _path_score (_find_path leaf_B "cost") "cost").
Proof. apply (add_child_score or_root leaf_B "cost"). discriminate. Defined.

(** X7: [add_child] on a root that is not a LEAF appends the new child's
    leaves after the leaves the tree had, and likewise for the
    unmitigated ones. *)
Theorem add_child_leaf_attacks (t : AttackTree) (c : AttackNode) :
  node_type (root t) <> LEAF ->
  get_all_leaf_attacks (with_root t (add_child (root t) c))
  = get_all_leaf_attacks t ++ _collect_leaves c [] /\
  get_unmitigated_attacks (with_root t (add_child (root t) c))
  = get_unmitigated_attacks t
    ++ List.filter no_mitigations (_collect_leaves c []).
Proof.
  intros Hk.
  assert (Hall : get_all_leaf_attacks (with_root t (add_child (root t) c))
                 = get_all_leaf_attacks t ++ _collect_leaves c []).
  { unfold get_all_leaf_attacks, with_root. cbn [root].
    rewrite !collect_leaves_preorder. cbn [app].
    destruct (root t) as [i n d k a cs m cv f] eqn:Hroot.
    unfold add_child. cbn [preorder children List.filter id name description
      node_type attributes mitigations cve_refs file_refs] in *.
    unfold is_leaf at 1 3. cbn [node_type].
    destruct k; try congruence; cbn [NodeType_eqb];
      rewrite map_app, concat_app, List.filter_app; cbn [map concat];
      rewrite app_nil_r; reflexivity. }
  split; [exact Hall|].
  unfold get_unmitigated_attacks. rewrite Hall. apply List.filter_app.
Qed.

Lemma add_child_leaf_attacks_witness :
  get_all_leaf_attacks (with_root or_tree (add_child (root or_tree) leaf_A))
  = get_all_leaf_attacks or_tree ++ _collect_leaves leaf_A [] /\
  get_unmitigated_attacks (with_root or_tree (add_child (root or_tree) leaf_A))
  = get_unmitigated_attacks or_tree
    ++ List.filter no_mitigations (_collect_leaves leaf_A []).
Proof. apply (add_child_leaf_attacks or_tree leaf_A). discriminate. Defined.

(** ** The export as a whole *)

Lemma visit_lines_length (M : gmap string string)
    (vs : list (option AttackNode * AttackNode)) :
  length (concat (map (visit_lines M) vs))
  = (length (List.filter is_leaf (map snd vs)) + length vs
     + length (List.filter (fun v => bool_decide (is_Some (fst v))) vs))%nat.
Proof.
  induction vs as [|[p n] vs IH]; cbn [map concat snd fst List.filter length];
    [reflexivity|].
  rewrite length_app, IH. unfold visit_lines, edge_line. cbn [fst snd].
  destruct (is_leaf n), p; cbn; lia.
Qed.

Lemma preorder_nonempty (node : AttackNode) :
  (1 <= length (preorder node))%nat.
Proof. destruct node. cbn. lia. Qed.

(** X8: for every tree, with or without repeated ids, the export of a
    fresh exporter holds one declaration line per node, one style line per
    LEAF, one edge line per node other than the root, and, with the header
    and the five legend lines, twice the node count plus the leaf count
    plus five lines in all. *)
Theorem export_line_totals (t : AttackTree) :
  length (node_lines (exported t)) = length (preorder (root t)) /\
  length (style_lines (exported t)) = length (get_all_leaf_attacks t) /\
  length (edge_lines (exported t)) = (length (preorder (root t)) - 1)%nat /\
  length (_lines (exported t))
  = (2 * length (preorder (root t)) + length (get_all_leaf_attacks t) + 5)%nat.
Proof.
  assert (Hleaves : get_all_leaf_attacks t
                    = List.filter is_leaf (preorder (root t))).
  { unfold get_all_leaf_attacks. rewrite collect_leaves_preorder.
    reflexivity. }
  split; [|split; [|split]].
  - rewrite exported_node_lines. apply length_map.
  - rewrite exported_style_lines, length_map, Hleaves. reflexivity.
  - rewrite exported_edge_lines, edge_count, visits_parents. reflexivity.
  - destruct (exported_state t) as (_ & _ & ->).
    assert (Hvisits : length (visits None (root t))
                      = length (preorder (root t))).
    { rewrite <- (visits_preorder None (root t)). symmetry.
      apply length_map. }
    pose proof (preorder_nonempty (root t)).
    rewrite !length_app, visit_lines_length, visits_parents, visits_preorder.
    rewrite Hleaves, Hvisits. cbn [length legend_lines]. lia.
Qed.

Lemma size_id_set_le (l : list string) :
  (size (list_to_set l : gset string) <= length l)%nat.
Proof.
  induction l as [|x l IH]; cbn [length].
  - rewrite list_to_set_nil, size_empty. lia.
  - rewrite list_to_set_cons, size_union_alt, size_singleton.
    assert (size (list_to_set l ∖ {[x]} : gset string)
            <= size (list_to_set l : gset string))%nat; [|lia].
    apply subseteq_size. intros y Hy. apply elem_of_difference in Hy.
    tauto.
Qed.

(** X9: the text [export] returns on a fresh exporter: the header, then
    for each node in pre-order its style directive (LEAF only), its
    declaration and its edge from the parent (all but the root), then the
    five legend lines, joined by newlines; every identifier is the one the
    memo holds for the node's id at the end. *)
Theorem export_text_layout (t : AttackTree) :
  export (init t)
  = String.concat newline
      (map render_line
           ([Header]
            ++ concat (map (visit_lines (_node_ids (exported t)))
                           (visits None (root t)))
            ++ legend_lines)) /\
  map snd (visits None (root t)) = preorder (root t) /\
  forall n, In n (preorder (root t)) ->
    exists k : nat,
      (k < length (preorder (root t)))%nat /\
      ident (_node_ids (exported t)) n = "N" +:+ str_of_nat k.
Proof.
  split; [|split].
  - unfold export. fold (exported t).
    destruct (exported_state t) as (_ & _ & ->). reflexivity.
  - apply visits_preorder.
  - intros n Hn.
    destruct (exported_state t) as ((Hval & _ & Hcount) & Hdom & _).
    pose proof (exported_memo_total t n Hn) as Hlook.
    destruct (Hval _ _ Hlook) as (k & Hk & Heq).
    exists k. split; [|assumption].
    rewrite Hcount, <- size_dom, Hdom in Hk.
    unfold id_set in Hk.
    pose proof (size_id_set_le (map id (preorder (root t)))) as Hle.
    rewrite length_map in Hle. lia.
Qed.

Lemma assign_tree (node : AttackNode) (self : MermaidExporter) :
  tree (snd (assign node self)) = tree self.
Proof. unfold assign. destruct (_node_ids self !! id node); reflexivity. Qed.

Lemma declare_tree (node : AttackNode) (node_id : string)
    (parent_id : option string) (self : MermaidExporter) :
  tree (declare node node_id parent_id self) = tree self.
Proof.
  unfold declare.
  destruct (NodeType_eqb (node_type node) OR),
    (NodeType_eqb (node_type node) AND), (parent_truthy parent_id);
    reflexivity.
Qed.

Lemma export_node_tree (node : AttackNode) :
  forall (parent_id : option string) (self : MermaidExporter),
    tree (snd (_export_node node parent_id self)) = tree self.
Proof.
  induction node as [i n d t a cs m cv f IH] using AttackNode_ind.
  intros parent_id self.
  remember (mkAttackNode i n d t a cs m cv f) as node eqn:Hnode.
  assert (Hcs : children node = cs) by (subst node; reflexivity).
  clear Hnode. rewrite export_node_unfold, Hcs. cbn [snd].
  transitivity (tree (declare node (fst (assign node self)) parent_id
                              (snd (assign node self))));
    [|rewrite declare_tree, assign_tree; reflexivity].
  generalize (declare node (fst (assign node self)) parent_id
                      (snd (assign node self))).
  generalize (fst (assign node self)). clear Hcs.
  induction IH as [|c cs' Hc _ IHcs]; intros x s; cbn [fold_left];
    [reflexivity|].
  rewrite IHcs. apply Hc.
Qed.

Lemma exporter_eq (a b : MermaidExporter) :
  tree a = tree b -> _lines a = _lines b ->
  _node_count a = _node_count b -> _node_ids a = _node_ids b -> a = b.
Proof. destruct a, b. cbn. intros -> -> -> ->. reflexivity. Qed.

(** X10: [export] can be called again on the same exporter: the memo and
    the counter it kept from the first call give every node the
    identifier it had, so the state after the second call is the state
    after the first and the same text is returned. *)
Theorem export_repeatable (t : AttackTree) :
  export_state (exported t) = exported t /\
  export (exported t) = export (init t).
Proof.
  assert (Hfix : export_state (exported t) = exported t).
  { destruct (exported_state t) as (Hok & Hdom & Hlines).
    assert (Htree : tree (exported t) = t).
    { unfold exported, export_state. cbn [_add_legend append_line tree].
      rewrite export_node_tree. reflexivity. }
    set (s := exported t) in *.
    set (s0 := mkMermaidExporter (tree s) [Header] (_node_count s)
                                 (_node_ids s)).
    assert (Hok0 : memo_ok s0) by exact Hok.
    destruct (export_node_lines (root (tree s0)) None s0 Hok0)
      as (Hok1 & Hsub1 & _ & Hdom1 & Hlines1); [discriminate|].
    set (s1 := snd (_export_node (root (tree s0)) None s0)) in *.
    assert (Hmemo : _node_ids s1 = _node_ids s).
    { symmetry. apply subseteq_dom_eq; [exact Hsub1|].
      rewrite Hdom1. cbn [s0 _node_ids tree]. rewrite Htree, Hdom.
      intros k Hk. apply elem_of_union in Hk. tauto. }
    assert (Hexp : export_state s = _add_legend s1) by reflexivity.
    rewrite Hexp. apply exporter_eq.
    - cbn [_add_legend append_line tree]. unfold s1.
      rewrite export_node_tree. reflexivity.
    - cbn [_add_legend append_line _lines].
      rewrite (Hlines1 (_node_ids s1) None); [|reflexivity|reflexivity].
      rewrite Hlines, Hmemo. cbn [s0 _lines tree]. rewrite Htree.
      unfold legend_lines. rewrite <- !app_assoc. reflexivity.
    - cbn [_add_legend append_line _node_count].
      destruct Hok1 as (_ & _ & ->). destruct Hok as (_ & _ & ->).
      rewrite Hmemo. reflexivity.
    - cbn [_add_legend append_line _node_ids]. exact Hmemo. }
  split; [exact Hfix|].
  unfold export. rewrite Hfix. reflexivity.
Qed.

Lemma visits_members (node : AttackNode) :
  forall (parent : option AttackNode) (v : option AttackNode * AttackNode),
    In v (visits parent node) ->
    In (snd v) (preorder node) /\
    (fst v = parent \/ exists q, fst v = Some q /\ In q (preorder node)).
Proof.
  induction node as [i n d t a cs m cv f IH] using AttackNode_ind.
  intros parent v Hv.
  remember (mkAttackNode i n d t a cs m cv f) as node eqn:Hnode.
  assert (Hpre : preorder node = node :: concat (map preorder cs))
    by (subst node; reflexivity).
  assert (Hvis : visits parent node
                 = (parent, node) :: concat (map (visits (Some node)) cs))
    by (subst node; reflexivity).
  clear Hnode. rewrite Hpre, Hvis in *. clear Hpre Hvis.
  destruct Hv as [<- | Hv].
  - cbn. split; [left; reflexivity | left; reflexivity].
  - apply in_concat in Hv as (vs & Hvs & Hv).
    apply in_map_iff in Hvs as (c & <- & Hc).
    apply list_elem_of_In in Hc as Hc'.
    pose proof (proj1 (Forall_forall _ _) IH c Hc' (Some node) v Hv)
      as [Hsnd Hfst].
    assert (Hsub : forall x, In x (preorder c) ->
                     In x (node :: concat (map preorder cs))).
    { intros x Hx. right. apply in_concat. exists (preorder c).
      split; [apply in_map; assumption | assumption]. }
    split; [apply Hsub; assumption|]. right.
    destruct Hfst as [-> | (q & -> & Hq)].
    + exists node. split; [reflexivity | left; reflexivity].
    + exists q. split; [reflexivity | apply Hsub; assumption].
Qed.

(** X11: every edge line of an export joins two declared vertices: its
    tail and its head are identifiers that some declaration line of the
    same export carries. *)
Theorem export_edges_declared (t : AttackTree)
    (parent_id connector node_id : string) :
  In (EdgeLine parent_id connector node_id) (edge_lines (exported t)) ->
  In parent_id (map line_node_id (node_lines (exported t))) /\
  In node_id (map line_node_id (node_lines (exported t))).
Proof.
  rewrite exported_edge_lines, exported_node_lines, map_map.
  cbn [node_line line_node_id]. intros Hin.
  apply in_concat in Hin as (ls & Hls & Hin).
  apply in_map_iff in Hls as ([p n] & <- & Hv).
  unfold edge_line in Hin. cbn [fst snd] in Hin.
  destruct p as [q|]; [|destruct Hin].
  destruct Hin as [Heq | []]. injection Heq as <- _ <-.
  destruct (visits_members (root t) None _ Hv) as [Hn Hq]. cbn in Hn, Hq.
  destruct Hq as [Hq | (q' & [= <-] & Hq)]; [discriminate|].
  split; apply in_map_iff; eexists; (split; [reflexivity | eassumption]).
Qed.

Lemma export_edges_declared_witness :
  In "N0" (map line_node_id (node_lines (exported or_tree))) /\
  In "N2" (map line_node_id (node_lines (exported or_tree))).
Proof.
  apply (export_edges_declared or_tree "N0" "-->" "N2").
  vm_compute. right. left. reflexivity.
Defined.

(** X12: the fallback colour ["fill:#gray"] of [_get_leaf_style] is never
    used: the table has an entry for each of the five difficulties, so the
    lookup does not depend on its default and no style is the fallback. *)
Theorem leaf_style_never_default (node : AttackNode) :
  (forall d default1 default2,
     colors_get colors d default1 = colors_get colors d default2) /\
  _get_leaf_style node <> "fill:#gray".
Proof.
  split.
  - intros d default1 default2. destruct d; reflexivity.
  - unfold _get_leaf_style.
    destruct (mitigations node); cbn [negb str_truthy];
      [destruct (difficulty (attributes node)); cbn|]; discriminate.
Qed.

(** On ids the memo does not hold yet and that do not repeat, the walk
    hands out the next counter values in visiting order and leaves every
    other memo entry alone. *)
Lemma export_node_fresh (node : AttackNode) :
  forall (parent_id : option string) (self : MermaidExporter),
    NoDup (map id (preorder node)) ->
    (forall x, x ∈ preorder node -> _node_ids self !! id x = None) ->
    _node_count (snd (_export_node node parent_id self))
    = (_node_count self + length (preorder node))%nat /\
    (forall (k : nat) x, preorder node !! k = Some x ->
       _node_ids (snd (_export_node node parent_id self)) !! id x
       = Some ("N" +:+ str_of_nat (_node_count self + k))) /\
    (forall i, i ∉ map id (preorder node) ->
       _node_ids (snd (_export_node node parent_id self)) !! i
       = _node_ids self !! i).
Proof.
  induction node as [i n d t a cs m cv f IH] using AttackNode_ind.
  intros parent_id self.
  remember (mkAttackNode i n d t a cs m cv f) as node eqn:Hnode.
  assert (Hcs : children node = cs) by (subst node; reflexivity).
  assert (Hpre : preorder node = node :: concat (map preorder cs))
    by (subst node; reflexivity).
  clear Hnode. rewrite Hpre, export_node_unfold, Hcs. cbn [snd map].
  intros Hnd Hfresh. apply NoDup_cons in Hnd as [Hhead Hnd].
  assert (Hnone : _node_ids self !! id node = None).
  { apply Hfresh. left. }
  destruct (declare_spec node (fst (assign node self)) parent_id
              (snd (assign node self))) as (Hids2 & Hcount2 & _).
  assert (Hids1 : _node_ids (snd (assign node self))
                  = <[id node := "N" +:+ str_of_nat (_node_count self)]>
                      (_node_ids self)).
  { unfold assign. rewrite Hnone. reflexivity. }
  assert (Hcount1 : _node_count (snd (assign node self))
                    = S (_node_count self)).
  { unfold assign. rewrite Hnone. reflexivity. }
  rewrite Hids1 in Hids2. rewrite Hcount1 in Hcount2.
  revert Hids2 Hcount2.
  generalize (declare node (fst (assign node self)) parent_id
                      (snd (assign node self))).
  generalize (fst (assign node self)). intros x s2 Hids2 Hcount2.
  assert (Hloop : forall s,
    NoDup (map id (concat (map preorder cs))) ->
    (forall y, y ∈ concat (map preorder cs) -> _node_ids s !! id y = None) ->
    _node_count (fold_left
       (fun st child => snd (_export_node child (Some x) st)) cs s)
    = (_node_count s + length (concat (map preorder cs)))%nat /\
    (forall (k : nat) y, concat (map preorder cs) !! k = Some y ->
       _node_ids (fold_left
          (fun st child => snd (_export_node child (Some x) st)) cs s)
         !! id y
       = Some ("N" +:+ str_of_nat (_node_count s + k))) /\
    (forall j, j ∉ map id (concat (map preorder cs)) ->
       _node_ids (fold_left
          (fun st child => snd (_export_node child (Some x) st)) cs s) !! j
       = _node_ids s !! j)).
  { clear Hcs Hpre Hhead Hnd Hfresh Hids2 Hcount2 s2.
    induction IH as [|c cs' Hc _ IHcs]; intros s Hnd Hfr;
      cbn [map concat fold_left] in *.
    - split; [cbn; lia|]. split; [|reflexivity].
      intros k y Hk. rewrite lookup_nil in Hk. discriminate.
    - rewrite map_app in Hnd. apply NoDup_app in Hnd as (Hndc & Hdisj & Hndr).
      destruct (Hc (Some x) s Hndc) as (Hcountc & Hidsc & Hkeepc).
      { intros y Hy. apply Hfr. apply elem_of_app. left. assumption. }
      set (sc := snd (_export_node c (Some x) s)) in *.
      destruct (IHcs sc Hndr) as (Hcountr & Hidsr & Hkeepr).
      { intros y Hy. rewrite Hkeepc.
        - apply Hfr. apply elem_of_app. right. assumption.
        - intros Hin. apply (Hdisj _ Hin).
          apply list_elem_of_fmap. exists y. split; [reflexivity|assumption]. }
      split; [rewrite Hcountr, Hcountc, length_app; lia|]. split.
      + intros k y Hk.
        destruct (decide (k < length (preorder c))%nat) as [Hlt|Hge].
        * rewrite lookup_app_l in Hk by assumption.
          rewrite Hkeepr; [apply Hidsc; assumption|].
          apply Hdisj. apply list_elem_of_fmap. exists y.
          split; [reflexivity|]. eapply list_elem_of_lookup_2. eassumption.
        * rewrite lookup_app_r in Hk by lia.
          rewrite (Hidsr _ _ Hk), Hcountc. do 3 f_equal. lia.
      + intros j Hj. rewrite map_app in Hj.
        rewrite Hkeepr, Hkeepc; [reflexivity| |];
          intros Hin; apply Hj; apply elem_of_app; auto. }
  destruct (Hloop s2 Hnd) as (Hcount' & Hids' & Hkeep').
  { intros y Hy. rewrite Hids2, lookup_insert_ne.
    - apply Hfresh. right. assumption.
    - intros Heq. apply Hhead. rewrite Heq.
      apply list_elem_of_fmap. exists y. split; [reflexivity|assumption]. }
  split; [rewrite Hcount', Hcount2; cbn [length]; lia|]. split.
  - intros [|k] y Hk; cbn in Hk.
    + injection Hk as <-. rewrite Hkeep' by assumption.
      rewrite Hids2, lookup_insert_eq. do 3 f_equal. lia.
    + rewrite (Hids' _ _ Hk), Hcount2. do 3 f_equal. lia.
  - intros j Hj.
    rewrite Hkeep', Hids2, lookup_insert_ne; [reflexivity| |].
    + intros Heq. apply Hj. rewrite <- Heq. left.
    + intros Hin. apply Hj. right. assumption.
Qed.

(** X13: when the ids of a tree do not repeat, a fresh exporter names the
    nodes [N0], [N1], [N2], ... in visiting order: the declaration line of
    the node at pre-order position [k] carries the identifier [N<k>]. *)
Theorem export_ids_in_order (t : AttackTree) :
  NoDup (map id (preorder (root t))) ->
  map line_node_id (node_lines (exported t))
  = map (fun k : nat => "N" +:+ str_of_nat k)
        (seq 0 (length (preorder (root t)))).
Proof.
  intros Hnd.
  set (s0 := mkMermaidExporter t [Header] 0 ∅).
  destruct (export_node_fresh (root t) None s0 Hnd) as (_ & Hids & _).
  { intros x _. apply lookup_empty. }
  assert (Hmemo : _node_ids (exported t)
                  = _node_ids (snd (_export_node (root t) None s0)))
    by reflexivity.
  rewrite exported_node_lines, map_map. cbn [node_line line_node_id].
  apply list_eq. intros k. rewrite !list_lookup_fmap.
  destruct (preorder (root t) !! k) as [x|] eqn:Hk.
  - rewrite lookup_seq_lt by (eapply lookup_lt_Some; eassumption).
    assert (Hx : ident (_node_ids (exported t)) x = "N" +:+ str_of_nat k).
    { unfold ident. rewrite Hmemo, (Hids _ _ Hk). reflexivity. }
    cbn [fmap option_fmap option_map]. rewrite Hx. reflexivity.
  - apply lookup_ge_None in Hk.
    rewrite (proj2 (lookup_ge_None _ _)); [reflexivity|].
    rewrite length_seq. assumption.
Qed.

Lemma export_ids_in_order_witness :
  map line_node_id (node_lines (exported and_tree))
  = map (fun k : nat => "N" +:+ str_of_nat k)
        (seq 0 (length (preorder (root and_tree)))).
Proof.
  apply (export_ids_in_order and_tree).
  apply (bool_decide_unpack _). vm_compute. reflexivity.
Defined.

(** ** What a serialized tree determines *)

Lemma NodeType_value_inj (a b : NodeType) :
  NodeType_value a = NodeType_value b -> a = b.
Proof. destruct a, b; cbn; intros H; first [reflexivity | discriminate H]. Qed.

Lemma Difficulty_name_inj (a b : Difficulty.t) :
  Difficulty.name a = Difficulty.name b -> a = b.
Proof. destruct a, b; cbn; intros H; first [reflexivity | discriminate H]. Qed.

Lemma Cost_name_inj (a b : Cost.t) : Cost.name a = Cost.name b -> a = b.
Proof. destruct a, b; cbn; intros H; first [reflexivity | discriminate H]. Qed.

Lemma DetectionRisk_name_inj (a b : DetectionRisk.t) :
  DetectionRisk.name a = DetectionRisk.name b -> a = b.
Proof. destruct a, b; cbn; intros H; first [reflexivity | discriminate H]. Qed.

Lemma map_PyStr_inj (l l' : list string) :
  map PyStr l = map PyStr l' -> l = l'.
Proof.
  revert l'. induction l as [|x l IH]; intros [|y l'] H; cbn in H;
    try discriminate; [reflexivity|].
  injection H as -> H. f_equal. apply IH. assumption.
Qed.

Lemma node_to_dict_serialized_part (node : AttackNode) :
  _node_to_dict (serialized_part node) = _node_to_dict node.
Proof.
  induction node as [i n d t a cs m cv f IH] using AttackNode_ind.
  assert (Hcs : map _node_to_dict (map serialized_part cs)
                = map _node_to_dict cs).
  { induction IH as [|c cs' Hc _ IHcs]; cbn [map]; [reflexivity|].
    rewrite Hc, IHcs. reflexivity. }
  cbn [serialized_part _node_to_dict id name description node_type attributes
       children mitigations cve_refs file_refs difficulty cost detection_risk
       time_hours].
  rewrite Hcs. reflexivity.
Qed.

Lemma node_to_dict_inj (node : AttackNode) :
  forall other,
    _node_to_dict node = _node_to_dict other ->
    serialized_part node = serialized_part other.
Proof.
  induction node as [i n d t a cs m cv f IH] using AttackNode_ind.
  intros [i' n' d' t' a' cs' m' cv' f'] H.
  cbn [serialized_part _node_to_dict id name description node_type attributes
       children mitigations cve_refs file_refs] in *.
  unfold str_list in H.
  injection H as Hi Hn Hd Ht Hdiff Hcost Hrisk Htime Hm Hf Hcs.
  apply NodeType_value_inj in Ht. apply Difficulty_name_inj in Hdiff.
  apply Cost_name_inj in Hcost. apply DetectionRisk_name_inj in Hrisk.
  apply map_PyStr_inj in Hm, Hf.
  assert (Hmap : map serialized_part cs = map serialized_part cs').
  { clear -IH Hcs. revert cs' Hcs.
    induction IH as [|c cs Hc _ IHcs]; intros [|c' cs'] Hcs; cbn [map] in *;
      try discriminate; [reflexivity|].
    injection Hcs as Hhead Htail.
    f_equal; [apply Hc | apply IHcs]; assumption. }
  rewrite Hi, Hn, Hd, Ht, Hdiff, Hcost, Hrisk, Htime, Hm, Hf, Hmap.
  reflexivity.
Qed.

(** X14: two trees serialize to the same value exactly when they agree on
    name, description, severity and version and their nodes agree on
    everything but [cve_refs], [requires_insider] and [requires_physical],
    the three fields [_node_to_dict] leaves out. *)
Theorem to_dict_determines (t t' : AttackTree) :
  to_dict t = to_dict t' <->
  tree_name t = tree_name t' /\
  tree_description t = tree_description t' /\
  severity t = severity t' /\
  version t = version t' /\
  serialized_part (root t) = serialized_part (root t').
Proof.
  unfold to_dict. split.
  - intros H. injection H as Hn Hd Hs Hv Hr.
    repeat split; try assumption. apply node_to_dict_inj. assumption.
  - intros (-> & -> & -> & -> & Hr).
    rewrite <- (node_to_dict_serialized_part (root t)), Hr,
      node_to_dict_serialized_part. reflexivity.
Qed.

(** ** The console summary *)

Lemma sum_map_le {A : Type} (f g : A -> Z) (l : list A) :
  (forall x, f x <= g x) -> sum (map f l) <= sum (map g l).
Proof.
  intros H. induction l as [|x l IH]; cbn [map]; [lia|].
  rewrite !sum_cons. specialize (H x). lia.
Qed.

Lemma filter_length_le {A : Type} (f : A -> bool) (l : list A) :
  (length (List.filter f l) <= length l)%nat.
Proof. induction l as [|x l IH]; cbn; [lia|]. destruct (f x); cbn; lia. Qed.

(** X15: in the summary of [generate_all_reports] the number of
    unmitigated attacks is never negative and never above the number of
    leaf attacks, which is never above the number of nodes of the trees. *)
Theorem summary_bounds (trees : list AttackTree) :
  fst (fst (summary trees)) = Z.of_nat (length trees) /\
  0 <= snd (summary trees) /\
  snd (summary trees) <= snd (fst (summary trees)) /\
  snd (fst (summary trees))
  <= sum (map (fun t => Z.of_nat (length (preorder (root t)))) trees).
Proof.
  unfold summary. cbn [fst snd]. split; [reflexivity|]. split; [|split].
  - transitivity (sum (map (fun _ : AttackTree => 0) trees)).
    + clear. induction trees; cbn [map]; [reflexivity|].
      rewrite sum_cons. lia.
    + apply sum_map_le. intros t. lia.
  - apply sum_map_le. intros t. unfold get_unmitigated_attacks.
    pose proof (filter_length_le no_mitigations (get_all_leaf_attacks t)).
    lia.
  - apply sum_map_le. intros t. unfold get_all_leaf_attacks.
    rewrite collect_leaves_preorder. cbn [app].
    pose proof (filter_length_le is_leaf (preorder (root t))). lia.
Qed.

(** ** Paths in trees without AND nodes, and the public entry points *)

Lemma and_free_unfold (node : AttackNode) :
  and_free node = true ->
  node_type node <> AND /\
  Forall (fun c => and_free c = true) (children node).
Proof.
  destruct node as [i n d t a cs m cv f]. cbn [and_free children node_type].
  intros H. apply andb_prop in H as [Hhere Hbelow]. split.
  - destruct t; cbn in Hhere; congruence.
  - apply Forall_forall. intros c Hc. apply list_elem_of_In in Hc.
    exact (proj1 (forallb_forall and_free cs) Hbelow c Hc).
Qed.

(** X16: in a subtree without AND nodes the result of [_find_path] is a
    path in the tree's own sense: it starts at the node and every further
    node is a child of the node before it. *)
Theorem find_path_chain (node : AttackNode) (minimize : string) :
  and_free node = true ->
  chain (_find_path node minimize) /\
  head (_find_path node minimize) = Some node.
Proof.
  intros Hfree. split;
    [|destruct (find_path_head node minimize) as [rest ->]; reflexivity].
  revert Hfree.
  induction node as [i n d t a cs m cv f IH] using AttackNode_ind.
  remember (mkAttackNode i n d t a cs m cv f) as node eqn:Hnode.
  assert (Hcs : children node = cs) by (subst node; reflexivity).
  clear Hnode. intros Hfree.
  apply and_free_unfold in Hfree as [Hkind Hbelow]. rewrite Hcs in Hbelow.
  destruct (node_cases node) as [Hk | [Hc | [[Hk Hc] | [Hk Hc]]]].
  - rewrite find_path_leaf by assumption. exact I.
  - rewrite find_path_childless by assumption. exact I.
  - destruct (or_loop_state_child node minimize Hc)
      as (k & child & Hchild & Hst & _).
    rewrite (find_path_or node), Hst by assumption. cbn [fst app].
    rewrite or_empty_find_path.
    pose proof Hchild as Hin. rewrite Hcs in Hchild.
    pose proof (Forall_lookup_child _ _ _ _ IH Hchild
                  (Forall_lookup_child _ _ _ _ Hbelow Hchild)) as Hrec.
    destruct (find_path_head child minimize) as [rest Hrest].
    rewrite Hrest in *. cbn [chain]. split; [|exact Hrec].
    apply list_elem_of_In. eapply list_elem_of_lookup_2. eassumption.
  - congruence.
Qed.

Lemma find_path_chain_witness :
  chain (_find_path or_root "difficulty") /\
  head (_find_path or_root "difficulty") = Some or_root.
Proof. apply (find_path_chain or_root "difficulty"). reflexivity. Defined.

(** With an AND node the result lists several branches one after the
    other: in the AND sample the second leaf is not a child of the
    first. *)
Example and_path_not_chain : ~ chain (_find_path and_root "cost").
Proof. cbn. intros (_ & [] & _). Qed.

(** X17: each of the three public searches returns a candidate path of
    the tree that starts at the root and that no other candidate beats
    under its own metric: difficulty for the easiest path, cost for the
    cheapest, detection risk for the stealthiest. *)
Theorem public_paths_optimal (t : AttackTree) :
  (In (find_easiest_path t) (all_paths (root t)) /\
   head (find_easiest_path t) = Some (root t) /\
   forall p, In p (all_paths (root t)) ->
     _path_score (find_easiest_path t) "difficulty"
     <= _path_score p "difficulty") /\
  (In (find_cheapest_path t) (all_paths (root t)) /\
   head (find_cheapest_path t) = Some (root t) /\
   forall p, In p (all_paths (root t)) ->
     _path_score (find_cheapest_path t) "cost" <= _path_score p "cost") /\
  (In (find_stealthiest_path t) (all_paths (root t)) /\
   head (find_stealthiest_path t) = Some (root t) /\
   forall p, In p (all_paths (root t)) ->
     _path_score (find_stealthiest_path t) "detection"
     <= _path_score p "detection").
Proof.
  unfold find_easiest_path, find_cheapest_path, find_stealthiest_path.
  repeat split;
    try (apply find_path_min_candidate);
    match goal with
    | |- head (_find_path ?n ?m) = _ =>
        destruct (find_path_head n m) as [rest ->]; reflexivity
    end.
Qed.

(** X18: two nodes of a tree are declared under the same diagram
    identifier exactly when they have the same id: the memo merges equal
    ids and never merges different ones. *)
Theorem export_same_identifier_iff (t : AttackTree) (i j : nat)
    (n m : AttackNode) :
  preorder (root t) !! i = Some n ->
  preorder (root t) !! j = Some m ->
  (map line_node_id (node_lines (exported t)) !! i
   = map line_node_id (node_lines (exported t)) !! j
   <-> id n = id m).
Proof.
  intros Hi Hj.
  destruct (exported_state t) as ((_ & Hinj & _) & _ & _).
  assert (Hn : In n (preorder (root t))).
  { apply list_elem_of_In. eapply list_elem_of_lookup_2. eassumption. }
  assert (Hm : In m (preorder (root t))).
  { apply list_elem_of_In. eapply list_elem_of_lookup_2. eassumption. }
  pose proof (exported_memo_total t n Hn) as Hln.
  pose proof (exported_memo_total t m Hm) as Hlm.
  rewrite exported_node_lines, map_map, !list_lookup_fmap, Hi, Hj.
  set (M := _node_ids (exported t)) in *.
  cbn [fmap option_fmap option_map node_line line_node_id].
  split.
  - intros [= Heq]. rewrite Heq in Hln. exact (Hinj _ _ _ Hln Hlm).
  - intros Heq. unfold ident. rewrite Heq. reflexivity.
Qed.

Lemma export_same_identifier_iff_witness :
  map line_node_id (node_lines (exported dup_tree)) !! 1%nat
  = map line_node_id (node_lines (exported dup_tree)) !! 2%nat
  <-> id dup_first = id dup_second.
Proof.
  apply (export_same_identifier_iff dup_tree 1 2 dup_first dup_second);
    reflexivity.
Defined.
